(** * Magnet links over Boost.URL: a shallow embedding of [example/magnet/magnet.cpp]

    The example builds a scheme-specific view ([magnet_link_view]) on top of
    the generic URL parser, and a grammar rule ([magnet_link_rule_t]) that
    accepts a generic absolute URI only when it carries at least one exact
    topic and every exact topic is itself a URI.

    The generic URI grammar ([urls::parse_uri], [urls::absolute_uri_rule])
    lives in the library proper; the development is parametric in it, so
    every result below holds for whatever that grammar accepts.  The
    percent-decoding iterator, the string-view helpers and the lazy
    [filtered_view] are small enough to be written out. *)

From Stdlib Require Import String Ascii List NArith ZArith Bool Arith Lia.
Import ListNotations.

Local Open Scope string_scope.

(** ** Sizes and string views *)

(** [std::size_t] on the 64-bit targets the example is built for. *)
Definition size_t := N.

(** [string_view::npos], the largest [size_t]. *)
Definition npos : size_t := 18446744073709551615%N.

Definition string_view := string.

Definition sv_size (s : string_view) : size_t := N.of_nat (String.length s).

(** What a C++ call may throw in this file: [result<T>::value()] on an
    error, and [string_view::substr] on a position past the end. *)
Inductive exception : Type :=
| bad_result_access
| out_of_range.

Inductive exn (A : Type) : Type :=
| Returns (a : A)
| Throws (e : exception).

Arguments Returns {A} a.
Arguments Throws {A} e.

Definition exn_bind {A B : Type} (m : exn A) (k : A -> exn B) : exn B :=
  match m with
  | Returns a => k a
  | Throws e => Throws e
  end.

Definition exn_map {A B : Type} (f : A -> B) (m : exn A) : exn B :=
  exn_bind m (fun a => Returns (f a)).

Declare Scope exn_scope.
Delimit Scope exn_scope with exn.
Notation "x <- m ;; k" := (exn_bind m (fun x => k))
  (at level 61, m at next level, right associativity) : exn_scope.

(** The position of the last occurrence of [c], counted from the front. *)
Fixpoint rindex (t : string) (c : ascii) : option nat :=
  match t with
  | EmptyString => None
  | String a r =>
      match rindex r c with
      | Some i => Some (S i)
      | None => if Ascii.eqb a c then Some 0 else None
      end
  end.

(** [string_view::find_last_of(char)], as the standard defines it: the
    position of the last occurrence, or [npos]. *)
Definition find_last_of (t : string_view) (c : ascii) : size_t :=
  match rindex t c with
  | Some i => N.of_nat i
  | None => npos
  end.

(** [string_view::substr(pos, n)], as the standard defines it: it throws
    when [pos > size()], and is otherwise the [min(n, size() - pos)]
    characters from [pos]. *)
Definition substr (t : string_view) (pos n : size_t) : exn string_view :=
  if (sv_size t <? pos)%N then Throws out_of_range
  else Returns (substring (N.to_nat pos)
                          (N.to_nat (N.min n (sv_size t - pos))) t).

(** [substr(pos)], the default count being [npos]. *)
Definition substr_from (t : string_view) (pos : size_t) : exn string_view :=
  substr t pos npos.

(** ** Character classes *)

Definition char_in (lo hi c : ascii) : bool :=
  ((N_of_ascii lo <=? N_of_ascii c) && (N_of_ascii c <=? N_of_ascii hi))%N.

(** Modelled from the spec: [urls::grammar::digit_chars]
    (boost/url/grammar/digit_chars.hpp), the ASCII digits [0-9]. *)
Definition digit_chars (c : ascii) : bool := char_in "0" "9" c.

Definition hexdig_value (c : ascii) : N :=
  if char_in "0" "9" c then N_of_ascii c - 48
  else if char_in "A" "F" c then N_of_ascii c - 55
  else if char_in "a" "f" c then N_of_ascii c - 87
  else 0.

(** ** Percent-encoded views *)

(** Modelled from the spec: [urls::pct_encoded_view]
    (boost/url/pct_encoded_view.hpp), "a percent-decoded view type": a
    reference to encoded text whose size, iteration and comparison are those
    of the decoded text.  The class validates its text on construction, so
    an escape is always a percent sign and two hex digits; on any other text
    the functions below are total but describe no run of the program. *)
Record pct_encoded_view : Type := { encoded : string_view }.

(** ** Results and error codes *)

(** [urls::error_code] as far as the example tells codes apart: the default
    constructed code (no error), the two [grammar::error] values it names or
    meets, and whatever else the generic grammar reports. *)
Inductive error_code : Type :=
| ec_success
| grammar_error_invalid
| grammar_error_leftover
| library_error (code : N).

(** [ec.failed()] *)
Definition ec_failed (ec : error_code) : bool :=
  match ec with
  | ec_success => false
  | _ => true
  end.

(** [urls::result<T>]: a value or an error code. *)
Inductive result (A : Type) : Type :=
| Ok (a : A)
| Err (e : error_code).

Arguments Ok {A} a.
Arguments Err {A} e.

(** [r.has_value()], also the conversion to [bool] in [if (!r)]. *)
Definition result_has_value {A : Type} (r : result A) : bool :=
  match r with
  | Ok _ => true
  | Err _ => false
  end.

(** [r.value()]: the value, or a thrown [system_error]. *)
Definition result_value {A : Type} (r : result A) : exn A :=
  match r with
  | Ok a => Returns a
  | Err _ => Throws bad_result_access
  end.

(** ** The library's views, as the example sees them *)

(** Modelled from the spec: [urls::query_param_view], the "Query
    Parameter" of the data model: a key, a value (empty when absent) and
    whether a value is present. *)
Record query_param_view : Type := {
  key : pct_encoded_view;
  value : pct_encoded_view;
  has_value : bool
}.

(** Modelled from the spec: [urls::url_view], reduced to what the example
    reads from it: the text it refers to (printed by [operator<<]), the
    scheme, [encoded_path()], and the sequence [params()] enumerates, "in
    original order, without deduplication". *)
Record url_view : Type := {
  url_text : string_view;
  scheme : string_view;
  encoded_path : string_view;
  params : list query_param_view
}.

(** A grammar rule, [Rule::parse(it, end)]: from the text between [it] and
    [end] to a result and the advanced [it], given as the text left over. *)
Definition rule (V : Type) : Type := string_view -> result V * string_view.

(** The part of Boost.URL the example calls into and that is not defined in
    it: the generic URI grammar, once as [urls::parse_uri] on a whole string
    and once as the rule [urls::absolute_uri_rule], and the decoding option
    of the percent-encoded views ([+] read as a space, or not). *)
Class url_library : Type := {
  plus_to_space : bool;
  parse_uri : string_view -> result url_view;
  absolute_uri_rule : rule url_view
}.

(** [std::size_t] addition wraps. *)
Definition size_add (a b : size_t) : size_t := ((a + b) mod 2 ^ 64)%N.

(** ** The lazy view of [filtered_view.hpp] *)

(** Modelled from the spec: [filtered_view<T, V, Predicate, Transform>]
    (example/magnet/filtered_view.hpp), section 4.1: a source sequence, a
    predicate and a transform; the predicate may own state (the type [St],
    here the decode buffer it holds by reference), the transform returns its
    result by value and may throw. *)
Record filtered_view (T V St : Type) : Type := {
  fv_source : list T;
  fv_predicate : T -> St -> bool * St;
  fv_transform : T -> exn V
}.

Arguments fv_source {T V St} f.
Arguments fv_predicate {T V St} f.
Arguments fv_transform {T V St} f.

Section FilteredView.

Context {T V St : Type}.

(** A cursor is a position of the source, given as the elements from that
    position on; the end sentinel is the empty remainder. *)
Definition fv_iterator : Type := list T.

(** Modelled from the spec: the skip both [begin()] and [++] do, "skipping
    non-matching elements eagerly at advance time". *)
Fixpoint fv_skip (pr : T -> St -> bool * St) (it : fv_iterator) (st : St)
  : fv_iterator * St :=
  match it with
  | [] => ([], st)
  | x :: r =>
      let (b, st') := pr x st in
      if b then (it, st') else fv_skip pr r st'
  end.

(** Modelled from the spec: [begin()], which "always restarts from the
    source's first element". *)
Definition fv_begin (v : filtered_view T V St) (st : St) : fv_iterator * St :=
  fv_skip (fv_predicate v) (fv_source v) st.

Definition fv_end (v : filtered_view T V St) : fv_iterator := [].

(** Modelled from the spec: [++it], which "advances to the next element
    whose predicate holds". *)
Definition fv_incr (v : filtered_view T V St) (it : fv_iterator) (st : St)
  : fv_iterator * St :=
  match it with
  | [] => ([], st)
  | _ :: r => fv_skip (fv_predicate v) r st
  end.

(** The range-based [for] of [main]: [for (auto h : view) ...], from a
    cursor on.  It returns the elements the body saw, or what the transform
    threw; [None] stands for a loop that has not finished within [fuel]
    rounds. *)
Fixpoint fv_loop (fuel : nat) (v : filtered_view T V St) (it : fv_iterator)
  (st : St) : option (exn (list V) * St) :=
  match fuel with
  | O => None
  | S fuel' =>
      match it with
      | [] => Some (Returns [], st)
      | x :: _ =>
          match fv_transform v x with
          | Throws e => Some (Throws e, st)
          | Returns y =>
              let (it', st') := fv_incr v it st in
              match fv_loop fuel' v it' st' with
              | Some (r, st'') => Some (exn_map (cons y) r, st'')
              | None => None
              end
          end
      end
  end.

(** One full pass over a view: [begin()], then the loop. *)
Definition iterate (v : filtered_view T V St) (st : St)
  : option (exn (list V) * St) :=
  let (it, st') := fv_begin v st in
  fv_loop (S (List.length (fv_source v))) v it st'.

(** The same pass written by recursion on the source, with no fuel. *)
Fixpoint fv_scan (pr : T -> St -> bool * St) (tr : T -> exn V) (l : list T)
  (st : St) : exn (list V) * St :=
  match l with
  | [] => (Returns [], st)
  | x :: r =>
      let (b, st') := pr x st in
      if b then
        match tr x with
        | Throws e => (Throws e, st')
        | Returns y =>
            let (res, st'') := fv_scan pr tr r st' in
            (exn_map (cons y) res, st'')
        end
      else fv_scan pr tr r st'
  end.

End FilteredView.

(** A predicate without state, as a predicate of a view. *)
Definition stateless {T St : Type} (f : T -> bool) : T -> St -> bool * St :=
  fun x st => (f x, st).

(** A transform that cannot throw. *)
Definition total {T V : Type} (f : T -> V) : T -> exn V :=
  fun x => Returns (f x).

(** ** The example itself *)

Section Magnet.

Context {lib : url_library}.

(** *** Iterating a percent-encoded view *)

(** An iterator over the decoded characters is a pointer into the encoded
    text; it is modelled by the text that remains from that pointer on.
    [it.base()] is then the iterator itself, and [end()] the empty text. *)
Definition pct_iterator : Type := string.

Definition pct_begin (v : pct_encoded_view) : pct_iterator := encoded v.

Definition pct_end (v : pct_encoded_view) : pct_iterator := "".

(** The byte an escape [%hl] stands for. *)
Definition escape_value (h l : ascii) : ascii :=
  ascii_of_N (16 * hexdig_value h + hexdig_value l).

(** A character that is not part of an escape, decoded. *)
Definition plain_value (c : ascii) : ascii :=
  if Ascii.eqb c "+" && plus_to_space then " "%char else c.

(** Modelled from the spec: [*it] of [pct_encoded_view::iterator], the
    decoded character at the pointer: the byte of an escape, a space for a
    plus sign when the option says so, the character itself otherwise.  On
    the end iterator, which the example never dereferences, the null
    character stands in. *)
Definition pct_deref (it : pct_iterator) : ascii :=
  match it with
  | EmptyString => Ascii.zero
  | String c r =>
      if Ascii.eqb c "%" then
        match r with
        | String h (String l _) => escape_value h l
        | _ => c
        end
      else plain_value c
  end.

(** Modelled from the spec: [++it] of [pct_encoded_view::iterator]; an
    escape is three characters wide, anything else one. *)
Definition pct_incr (it : pct_iterator) : pct_iterator :=
  match it with
  | EmptyString => EmptyString
  | String c r =>
      if Ascii.eqb c "%" then
        match r with
        | String _ (String _ r') => r'
        | _ => EmptyString
        end
      else r
  end.

(** [std::next(it, n)] *)
Definition std_next (it : pct_iterator) (n : nat) : pct_iterator :=
  Nat.iter n pct_incr it.

(** The decoded characters from an iterator to the end of its view. *)
Fixpoint pct_chars (it : pct_iterator) : string :=
  match it with
  | EmptyString => EmptyString
  | String c r =>
      if Ascii.eqb c "%" then
        match r with
        | String h (String l r') => String (escape_value h l) (pct_chars r')
        | _ => String c EmptyString
        end
      else String (plain_value c) (pct_chars r)
  end.

(** The decoded text of a view. *)
Definition decoded (v : pct_encoded_view) : string := pct_chars (pct_begin v).

(** Modelled from the spec: [v.size()], the number of decoded
    characters. *)
Definition pct_size (v : pct_encoded_view) : size_t := sv_size (decoded v).

(** Modelled from the spec: [v == s] and [v != s], the "decoding-aware
    comparison" of the decoded text with plain text. *)
Definition pct_eq (v : pct_encoded_view) (s : string_view) : bool :=
  String.eqb (decoded v) s.

Definition pct_ne (v : pct_encoded_view) (s : string_view) : bool :=
  negb (pct_eq v s).

Fixpoint string_forallb (f : ascii -> bool) (s : string) : bool :=
  match s with
  | EmptyString => true
  | String c r => f c && string_forallb f r
  end.

(** [std::all_of(first, v.end(), pred)] over decoded characters. *)
Definition pct_all_of (first : pct_iterator) (pred : ascii -> bool) : bool :=
  string_forallb pred (pct_chars first).

(** [string_view(first.base(), last.base())]: the encoded text between two
    iterators of one view. *)
Definition sv_between (first last : pct_iterator) : string_view :=
  substring 0 (String.length first - String.length last) first.

(** Modelled from the spec: [v.assign_to(buf)], the one "percent-decode
    pass into the caller-supplied scratch buffer": the buffer receives the
    decoded text, whatever it held. *)
Definition assign_to (v : pct_encoded_view) (buf : string) : string :=
  decoded v.

(** *** Predicates *)

(** [is_exact_topic::operator()] *)
Definition is_exact_topic (p : query_param_view) : bool :=
  if pct_eq (key p) "xt" then true
  else
    (3 <? pct_size (key p))%N &&
    Ascii.eqb (pct_deref (std_next (pct_begin (key p)) 0)) "x" &&
    Ascii.eqb (pct_deref (std_next (pct_begin (key p)) 1)) "t" &&
    Ascii.eqb (pct_deref (std_next (pct_begin (key p)) 2)) "." &&
    pct_all_of (std_next (pct_begin (key p)) 3) digit_chars.

(** [is_url_with_key<MutableString>::operator()], the buffer [buf_] being
    the state it is given and leaves behind. *)
Definition is_url_with_key (k_ : string_view) (p : query_param_view)
  (buf_ : string) : bool * string :=
  if pct_ne (key p) k_ then (false, buf_)
  else
    let ec := ec_success in
    let buf_ := assign_to (value p) buf_ in
    if ec_failed ec then (false, buf_)
    else
      let r := parse_uri buf_ in
      (result_has_value r, buf_).

(** *** Transforms *)

(** [to_url::operator()] *)
Definition to_url (p : query_param_view) : exn url_view :=
  result_value (parse_uri (encoded (value p))).

(** [to_decoded_value::operator()] *)
Definition to_decoded_value (p : query_param_view) : pct_encoded_view :=
  value p.

(** [to_infohash::operator()] *)
Definition to_infohash (p : query_param_view) : exn string_view :=
  (topic <- result_value (parse_uri (encoded (value p))) ;;
   let t := encoded_path topic in
   let pos := find_last_of t ":" in
   if negb (pos =? npos)%N then substr_from t (size_add pos 1%N)
   else Returns t)%exn.

(** [to_protocol::operator()] *)
Definition to_protocol (p : query_param_view) : exn string_view :=
  (topic <- result_value (parse_uri (encoded (value p))) ;;
   let t := encoded_path topic in
   let pos := find_last_of t ":" in
   substr t 0%N pos)%exn.

(** *** The view *)

(** [magnet_link_view] *)
Record magnet_link_view : Type := { u_ : url_view }.

(** The view types: exact topics need no state, the views by key share the
    caller's decode buffer. *)
Definition topics_view : Type := filtered_view query_param_view url_view unit.

Definition info_hashes_view : Type :=
  filtered_view query_param_view string_view unit.

Definition protocols_view : Type :=
  filtered_view query_param_view string_view unit.

Definition keys_view : Type :=
  filtered_view query_param_view pct_encoded_view string.

(** [magnet_link_view::exact_topics] *)
Definition exact_topics (m : magnet_link_view) : topics_view :=
  {| fv_source := params (u_ m);
     fv_predicate := stateless is_exact_topic;
     fv_transform := to_url |}.

(** [magnet_link_view::info_hashes] *)
Definition info_hashes (m : magnet_link_view) : info_hashes_view :=
  {| fv_source := params (u_ m);
     fv_predicate := stateless is_exact_topic;
     fv_transform := to_infohash |}.

(** [magnet_link_view::protocols] *)
Definition protocols (m : magnet_link_view) : protocols_view :=
  {| fv_source := params (u_ m);
     fv_predicate := stateless is_exact_topic;
     fv_transform := to_protocol |}.

(** What the five accessors by key share: the view of the parameters whose
    key is [k] and whose value is a URL. *)
Definition url_keys (m : magnet_link_view) (k : string_view) : keys_view :=
  {| fv_source := params (u_ m);
     fv_predicate := is_url_with_key k;
     fv_transform := total to_decoded_value |}.

(** [magnet_link_view::address_trackers] *)
Definition address_trackers (m : magnet_link_view) : keys_view :=
  url_keys m "tr".

(** [magnet_link_view::exact_sources] *)
Definition exact_sources (m : magnet_link_view) : keys_view :=
  url_keys m "xs".

(** [magnet_link_view::acceptable_sources] *)
Definition acceptable_sources (m : magnet_link_view) : keys_view :=
  url_keys m "as".

(** [magnet_link_view::manifest_topics] *)
Definition manifest_topics (m : magnet_link_view) : keys_view :=
  url_keys m "mt".

(** [magnet_link_view::web_seed] *)
Definition web_seed (m : magnet_link_view) : keys_view :=
  url_keys m "ws".

(** The loop of [magnet_link_view::param] over the parameters from [it] to
    the end. *)
Fixpoint param_from (it : list query_param_view) (k : string_view)
  : option pct_encoded_view :=
  match it with
  | [] => None
  | p :: it' =>
      if (pct_size (key p) <? 2)%N then param_from it' k
      else
        let first := pct_begin (key p) in
        let mid := std_next (pct_begin (key p)) 2 in
        let last := pct_end (key p) in
        let prefix := {| encoded := sv_between first mid |} in
        let suffix := {| encoded := sv_between mid last |} in
        if pct_eq prefix "x." && pct_eq suffix k && has_value p
        then Some (value p)
        else param_from it' k
  end.

(** [magnet_link_view::param] *)
Definition param (m : magnet_link_view) (k : string_view)
  : option pct_encoded_view :=
  param_from (params (u_ m)) k.

(** *** The grammar rule *)

(** [std::find_if(first, end, pred)] on a sequence: the position of the
    first element that satisfies [pred], or the end. *)
Fixpoint find_if {A : Type} (it : list A) (pred : A -> bool) : list A :=
  match it with
  | [] => []
  | x :: r => if pred x then it else find_if r pred
  end.

(** [std::all_of(first, end, pred)] *)
Definition all_of {A : Type} (it : list A) (pred : A -> bool) : bool :=
  forallb pred it.

(** [pit == pend] *)
Definition at_end {A : Type} (it : list A) : bool :=
  match it with
  | [] => true
  | _ => false
  end.

(** [urls::grammar::parse(it, end, rule)] *)
Definition grammar_parse_range {V : Type} (input : string_view) (r : rule V)
  : result V * string_view :=
  r input.

(** [magnet_link_rule_t::parse] *)
Definition magnet_link_rule : rule magnet_link_view :=
  fun input =>
    let (r, it) := grammar_parse_range input absolute_uri_rule in
    match r with
    | Err _ => (Err grammar_error_invalid, it)
    | Ok u =>
        let m := {| u_ := u |} in
        let ps := params (u_ m) in
        let pit := find_if ps is_exact_topic in
        if at_end pit then (Err grammar_error_invalid, it)
        else if negb (all_of pit (fun p =>
                  if negb (is_exact_topic p) then true
                  else
                    let u := parse_uri (encoded (value p)) in
                    result_has_value u))
        then (Err grammar_error_invalid, it)
        else (Ok m, it)
    end.

(** Modelled from the spec: [urls::grammar::parse(s, rule)]
    (boost/url/grammar/parse.hpp), the entry point on a whole string: the
    rule must succeed and leave nothing of the input. *)
Definition grammar_parse {V : Type} (s : string_view) (r : rule V)
  : result V :=
  let (rv, it) := r s in
  if result_has_value rv && negb (String.eqb it "")
  then Err grammar_error_leftover
  else rv.

(** [parse_magnet_link] *)
Definition parse_magnet_link (s : string_view) : result magnet_link_view :=
  grammar_parse s magnet_link_rule.

End Magnet.

(** ** A reference instance of the library *)

(** The results of this development hold for every [url_library].  To run
    the example on concrete links, the generic grammar of RFC 3986 is
    written out here in a direct form: scheme, optional authority, path,
    query, and for [parse_uri] also a fragment; a query is cut into
    parameters at [&] and each parameter at its first [=]. *)

Fixpoint string_existsb (f : ascii -> bool) (s : string) : bool :=
  match s with
  | EmptyString => false
  | String c r => f c || string_existsb f r
  end.

Definition one_of (cs : string) (c : ascii) : bool :=
  string_existsb (Ascii.eqb c) cs.

Definition alpha_chars (c : ascii) : bool :=
  char_in "a" "z" c || char_in "A" "Z" c.

Definition hexdig_chars (c : ascii) : bool :=
  char_in "0" "9" c || char_in "A" "F" c || char_in "a" "f" c.

Definition unreserved_chars (c : ascii) : bool :=
  alpha_chars c || digit_chars c || one_of "-._~" c.

Definition sub_delim_chars (c : ascii) : bool := one_of "!$&'()*+,;=" c.

Definition scheme_chars (c : ascii) : bool :=
  alpha_chars c || digit_chars c || one_of "+-." c.

Definition authority_chars (c : ascii) : bool :=
  unreserved_chars c || sub_delim_chars c || one_of ":@[]" c.

Definition path_chars (c : ascii) : bool :=
  unreserved_chars c || sub_delim_chars c || one_of ":@/" c.

Definition query_chars (c : ascii) : bool :=
  unreserved_chars c || sub_delim_chars c || one_of ":@/?" c.

(** The longest prefix made of allowed characters and well-formed escapes,
    and what follows it. *)
Fixpoint take_encoded (ok : ascii -> bool) (s : string) : string * string :=
  match s with
  | EmptyString => ("", "")
  | String c r =>
      if Ascii.eqb c "%" then
        match r with
        | String h (String l r') =>
            if hexdig_chars h && hexdig_chars l then
              let (a, b) := take_encoded ok r' in
              (String c (String h (String l a)), b)
            else ("", s)
        | _ => ("", s)
        end
      else if ok c then
        let (a, b) := take_encoded ok r in (String c a, b)
      else ("", s)
  end.

(** The longest prefix made of allowed characters, and what follows it. *)
Fixpoint take_while (ok : ascii -> bool) (s : string) : string * string :=
  match s with
  | EmptyString => ("", "")
  | String c r =>
      if ok c then let (a, b) := take_while ok r in (String c a, b)
      else ("", s)
  end.

(** The text before the first [sep], and the text after it when there is
    one. *)
Fixpoint break_at (sep : ascii) (s : string) : string * option string :=
  match s with
  | EmptyString => ("", None)
  | String c r =>
      if Ascii.eqb c sep then ("", Some r)
      else let (a, b) := break_at sep r in (String c a, b)
  end.

(** The pieces of [s] between occurrences of [sep]. *)
Fixpoint split_on (sep : ascii) (s : string) : list string :=
  match s with
  | EmptyString => [""]
  | String c r =>
      if Ascii.eqb c sep then "" :: split_on sep r
      else
        match split_on sep r with
        | [] => [String c ""]
        | w :: ws => String c w :: ws
        end
  end.

Definition make_param (kv : string) : query_param_view :=
  match break_at "=" kv with
  | (k, Some v) =>
      {| key := {| encoded := k |}; value := {| encoded := v |};
         has_value := true |}
  | (k, None) =>
      {| key := {| encoded := k |}; value := {| encoded := "" |};
         has_value := false |}
  end.

Definition query_params (q : option string) : list query_param_view :=
  match q with
  | None => []
  | Some q => map make_param (split_on "&" q)
  end.

Definition starts_with (pre s : string) : bool := String.prefix pre s.

(** [scheme ":" hier-part [ "?" query ]] *)
Definition rfc_absolute_uri : rule url_view :=
  fun s =>
    let (sch, r1) := take_while scheme_chars s in
    match sch, r1 with
    | String c0 _, String c1 r2 =>
        if alpha_chars c0 && Ascii.eqb c1 ":" then
          let r3 :=
            if starts_with "//" r2
            then snd (take_encoded authority_chars
                        (substring 2 (String.length r2 - 2) r2))
            else r2 in
          let (path, r4) := take_encoded path_chars r3 in
          let (q, r5) :=
            match r4 with
            | String c r =>
                if Ascii.eqb c "?" then
                  let (q, r') := take_encoded query_chars r in (Some q, r')
                else (None, r4)
            | EmptyString => (None, r4)
            end in
          (Ok {| url_text :=
                   substring 0 (String.length s - String.length r5) s;
                 scheme := sch;
                 encoded_path := path;
                 params := query_params q |}, r5)
        else (Err (library_error 1), s)
    | _, _ => (Err (library_error 1), s)
    end.

(** [URI = scheme ":" hier-part [ "?" query ] [ "#" fragment ]], on a whole
    string. *)
Definition rfc_parse_uri (s : string_view) : result url_view :=
  let (r, rest) := rfc_absolute_uri s in
  match r with
  | Err e => Err e
  | Ok u =>
      let whole :=
        {| url_text := s; scheme := scheme u;
           encoded_path := encoded_path u; params := params u |} in
      match rest with
      | EmptyString => Ok whole
      | String c f =>
          if Ascii.eqb c "#" then
            match snd (take_encoded query_chars f) with
            | EmptyString => Ok whole
            | _ => Err grammar_error_leftover
            end
          else Err grammar_error_leftover
      end
  end.

Definition reference_library : url_library :=
  {| plus_to_space := true;
     parse_uri := rfc_parse_uri;
     absolute_uri_rule := rfc_absolute_uri |}.

(** *** Sample links *)

(** The view of a result; an empty view stands in for a rejection. *)
Definition view_of (r : result magnet_link_view) : magnet_link_view :=
  match r with
  | Ok m => m
  | Err _ =>
      {| u_ := {| url_text := ""; scheme := ""; encoded_path := "";
                  params := [] |} |}
  end.

Definition plain_param (k v : string) : query_param_view :=
  {| key := {| encoded := k |}; value := {| encoded := v |};
     has_value := true |}.

(** The link of the example's usage text, shortened to one tracker. *)
Definition leaves_link : string :=
  "magnet:?xt=urn:btih:d2474e86c95b19b8bcfdb92bc12c9d44667cfa36&dn=Leaves+of+Grass&tr=udp%3A%2F%2Ftracker.example.com%3A80".

Definition leaves_view : magnet_link_view :=
  view_of (@parse_magnet_link reference_library leaves_link).

Definition leaves_topic : query_param_view :=
  plain_param "xt" "urn:btih:d2474e86c95b19b8bcfdb92bc12c9d44667cfa36".

Definition leaves_urn : url_view :=
  {| url_text := "urn:btih:d2474e86c95b19b8bcfdb92bc12c9d44667cfa36";
     scheme := "urn";
     encoded_path := "btih:d2474e86c95b19b8bcfdb92bc12c9d44667cfa36";
     params := [] |}.

(** A link with three trackers, the second of which is no URI, and with an
    extension parameter. *)
Definition trackers_link : string :=
  "magnet:?xt.1=urn:sha1:abc&tr=udp%3A%2F%2Fa.example%3A80&tr=nowhere&x.custom=value123&tr=http%3A%2F%2Fb.example%2Fannounce".

Definition trackers_view : magnet_link_view :=
  view_of (@parse_magnet_link reference_library trackers_link).

(** Links the rule rejects: no exact topic; an exact topic that is no URI
    after one that is. *)
Definition no_topic_link : string := "magnet:?dn=foo".

Definition bad_topic_link : string := "magnet:?xt=urn:btih:abc&xt.2=nothing".

Definition bad_topic_url : url_view :=
  {| url_text := bad_topic_link; scheme := "magnet"; encoded_path := "";
     params := [plain_param "xt" "urn:btih:abc";
                plain_param "xt.2" "nothing"] |}.

(** The same query under two schemes. *)
Definition magnet_scheme_link : string := "magnet:?xt=urn:btih:abc".

Definition http_scheme_link : string := "http:?xt=urn:btih:abc".

Definition magnet_scheme_url : url_view :=
  {| url_text := magnet_scheme_link; scheme := "magnet"; encoded_path := "";
     params := [plain_param "xt" "urn:btih:abc"] |}.

Definition http_scheme_url : url_view :=
  {| url_text := http_scheme_link; scheme := "http"; encoded_path := "";
     params := [plain_param "xt" "urn:btih:abc"] |}.

(** The same two links with a fragment: the absolute-URI rule stops before
    the [#], so the rule accepts a proper prefix of the input. *)
Definition magnet_fragment_link : string := "magnet:?xt=urn:btih:abc#frag".

Definition http_fragment_link : string := "http:?xt=urn:btih:abc#frag".

(** An exact topic whose URI has no colon in its path. *)
Definition bare_topic : query_param_view := plain_param "xt" "sha1:abcdef".

Definition bare_urn : url_view :=
  {| url_text := "sha1:abcdef"; scheme := "sha1"; encoded_path := "abcdef";
     params := [] |}.

(** ** The specification's side *)

(** The first [n] characters of a text, and the text without them. *)
Fixpoint string_take (n : nat) (s : string) : string :=
  match n, s with
  | S n', String c r => String c (string_take n' r)
  | _, _ => EmptyString
  end.

Fixpoint string_drop (n : nat) (s : string) : string :=
  match n, s with
  | S n', String _ r => string_drop n' r
  | _, _ => s
  end.

(** The first character of a text, as [*it] reads it (the null character
    stands in on the empty text, which the example never dereferences). *)
Definition string_head (s : string) : ascii :=
  match s with
  | String c _ => c
  | EmptyString => Ascii.zero
  end.

(** The exact-topic predicate in the words of the specification: the
    decoded key is [xt], or it is longer than three characters, begins with
    [x], [t], [.] and continues with ASCII digits only. *)
Definition exact_topic_key (d : string) : Prop :=
  d = "xt" \/
  (3 < String.length d /\
   String.get 0 d = Some "x"%char /\
   String.get 1 d = Some "t"%char /\
   String.get 2 d = Some "."%char /\
   forall i c, 3 <= i -> String.get i d = Some c ->
               (N_of_ascii "0" <= N_of_ascii c <= N_of_ascii "9")%N).

(** The test [is_exact_topic] makes, on the decoded key alone. *)
Definition exact_topic_test (d : string) : bool :=
  if String.eqb d "xt" then true
  else
    (3 <? sv_size d)%N &&
    Ascii.eqb (string_head d) "x" &&
    Ascii.eqb (string_head (string_drop 1 d)) "t" &&
    Ascii.eqb (string_head (string_drop 2 d)) "." &&
    string_forallb digit_chars (string_drop 3 d).

(** The extension-parameter predicate in the words of the specification:
    the first two decoded characters of the key are [x.], the remaining
    decoded key is the requested name. *)
Definition extension_key (name d : string) : Prop :=
  string_take 2 d = "x." /\ string_drop 2 d = name.

(** The same as a test, together with the presence of a value. *)
Definition is_extension_param {lib : url_library} (name : string)
  (p : query_param_view) : bool :=
  String.eqb (decoded (key p)) ("x." ++ name) && has_value p.

(** The key-with-nested-URI predicate as a test without a buffer: the
    decoded key is [k] and the decoded value parses as a URI. *)
Definition is_url_keyed {lib : url_library} (k : string)
  (p : query_param_view) : bool :=
  String.eqb (decoded (key p)) k &&
  result_has_value (parse_uri (decoded (value p))).

(** The check the rule runs on each parameter from the first exact topic
    on: the closure it hands to [std::all_of]. *)
Definition topic_parses {lib : url_library} (p : query_param_view) : bool :=
  if negb (is_exact_topic p) then true
  else
    let u := parse_uri (encoded (value p)) in
    result_has_value u.

(** What the grammar rule asks of the parameters of a URL, in the words of
    the specification: some parameter is an exact topic, and the value of
    every exact topic parses as a URI. *)
Definition exact_topics_valid {lib : url_library} (u : url_view) : Prop :=
  (exists p, In p (params u) /\ is_exact_topic p = true) /\
  (forall p, In p (params u) -> is_exact_topic p = true ->
             exists v, parse_uri (encoded (value p)) = Ok v).

(** [n] passes over a view one after the other, each from [begin()] and
    from the state the pass before it left: what each pass yielded, in
    turn, and the state after the last. *)
Fixpoint passes {T V St : Type} (n : nat) (v : filtered_view T V St)
  (st : St) : option (list (exn (list V)) * St) :=
  match n with
  | O => Some ([], st)
  | S n' =>
      match iterate v st with
      | None => None
      | Some (r, st') =>
          match passes n' v st' with
          | None => None
          | Some (rs, st'') => Some (r :: rs, st'')
          end
      end
  end.

(** Every pass over [v] finishes and yields [r], however many passes came
    before it and whatever state they, or anything else, left. *)
Definition repeats {T V St : Type} (v : filtered_view T V St)
  (r : exn (list V)) : Prop :=
  forall n st, exists st', passes n v st = Some (repeat r n, st').

(** A text without a colon. *)
Definition colon_free (t : string) : Prop :=
  forall i, String.get i t <> Some ":"%char.

(** The elements a list of transform results stands for: all of them, or
    the first exception. *)
Fixpoint exn_sequence {A : Type} (l : list (exn A)) : exn (list A) :=
  match l with
  | [] => Returns []
  | Returns a :: r => exn_map (cons a) (exn_sequence r)
  | Throws e :: _ => Throws e
  end.

(** ** The rest of the example: single-valued lookups and [main] *)

(** What the rest of the example asks of the library besides the grammar:
    how [params_encoded_view::find] compares the key it is given with the
    encoded key of a parameter, and what [operator<<] writes for a
    [pct_encoded_view].  Both are parameters, as the grammar is. *)
Class url_streams : Type := {
  key_equal_encoded : string_view -> string_view -> bool;
  write_encoded : pct_encoded_view -> string
}.

Section Rest.

Context {lib : url_library} {io : url_streams}.

(** Modelled from the spec: [params_encoded_view::find(key)]
    (boost/url/params_encoded_view.hpp), the "single-valued lookup": the
    position of the first parameter whose key is [key], or the end. *)
Definition params_find (ps : list query_param_view) (k : string_view)
  : list query_param_view :=
  find_if ps (fun p => key_equal_encoded k (encoded (key p))).

(** [magnet_link_view::decoded_param]; [u_.encoded_params()] enumerates the
    parameters [params()] does, with their texts still encoded. *)
Definition decoded_param (m : magnet_link_view) (k : string_view)
  : option pct_encoded_view :=
  let ps := params (u_ m) in
  let it := params_find ps k in
  match it with
  | p :: _ =>
      if has_value p then Some {| encoded := encoded (value p) |} else None
  | [] => None
  end.

(** [magnet_link_view::url_param] *)
Definition url_param (m : magnet_link_view) (k : string_view)
  : option url_view :=
  let ps := params (u_ m) in
  let it := params_find ps k in
  match it with
  | p :: _ =>
      if has_value p then
        let r := parse_uri (encoded (value p)) in
        match r with
        | Ok u => Some u
        | Err _ => None
        end
      else None
  | [] => None
  end.

(** [magnet_link_view::keyword_topic] *)
Definition keyword_topic (m : magnet_link_view) : option pct_encoded_view :=
  decoded_param m "kt".

(** [magnet_link_view::display_name] *)
Definition display_name (m : magnet_link_view) : option pct_encoded_view :=
  decoded_param m "dn".

(** [operator<<(std::ostream&, magnet_link_view)]: the text of the URL. *)
Definition write_magnet_link (m : magnet_link_view) : string :=
  url_text (u_ m).

(** The line feed the example ends each line with. *)
Definition newline : string := String (ascii_of_nat 10) EmptyString.

Definition EXIT_SUCCESS : Z := 0%Z.

Definition EXIT_FAILURE : Z := 1%Z.

(** The usage text of [main], after the program name. *)
Definition usage : string :=
  "magnet <link>" ++ newline ++
  "example: magnet magnet:?xt=urn:btih:d2474e86c95b19b8bcfdb92bc12c9d44667cfa36"
  ++ "&dn=Leaves+of+Grass+by+Walt+Whitman.epub"
  ++ "&tr=udp%3A%2F%2Ftracker.example4.com%3A80"
  ++ "&tr=udp%3A%2F%2Ftracker.example5.com%3A80"
  ++ "&tr=udp%3A%2F%2Ftracker.example3.com%3A6969"
  ++ "&tr=udp%3A%2F%2Ftracker.example2.com%3A80"
  ++ "&tr=udp%3A%2F%2Ftracker.example1.com%3A1337" ++ newline.

(** What a run of statements comes to: [None] when a loop has not finished
    within its fuel, [Some (Throws e)] when an exception leaves [main]
    (the program terminates, and what it had written is not modelled), and
    otherwise the value reached. *)
Definition run (A : Type) : Type := option (exn A).

Definition run_bind {A B : Type} (m : run A) (k : A -> run B) : run B :=
  match m with
  | None => None
  | Some (Throws e) => Some (Throws e)
  | Some (Returns a) => k a
  end.

(** The lines one loop of [main] writes: [label], the element, a line
    feed, for each element in turn. *)
Definition lines {V : Type} (label : string) (show : V -> string)
  (l : list V) : string :=
  String.concat "" (map (fun h => label ++ show h ++ newline) l).

(** [for (auto h : view) std::cout << label << h << "\n";] after [out] has
    been written; the body does not touch the state of the view, so the
    elements are gathered first and written then. *)
Definition print_each {V St : Type} (label : string) (show : V -> string)
  (v : filtered_view query_param_view V St) (st : St) (out : string)
  : run (string * St) :=
  match iterate v st with
  | None => None
  | Some (Throws e, _) => Some (Throws e)
  | Some (Returns l, st') => Some (Returns (out ++ lines label show l, st'))
  end.

(** [if (x) std::cout << label << *x << "\n";] *)
Definition print_optional (label : string) (x : option pct_encoded_view)
  (out : string) : string :=
  match x with
  | Some v => out ++ label ++ write_encoded v ++ newline
  | None => out
  end.

(** [main], given [argv[0]] and the arguments after it, so that [argc] is
    one more than their number: what it writes to standard output and the
    status it returns. *)
Definition main (argv0 : string) (args : list string) : run (string * Z) :=
  match args with
  | [link] =>
      let r := parse_magnet_link link in
      match r with
      | Err _ => Some (Returns ("", EXIT_FAILURE))
      | Ok m =>
          let out := "link: " ++ write_magnet_link m ++ newline in
          run_bind (print_each "topic: " url_text (exact_topics m) tt out)
          (fun '(out, _) =>
          run_bind (print_each "hash: " (fun h => h) (info_hashes m) tt out)
          (fun '(out, _) =>
          run_bind (print_each "protocol: " (fun h => h) (protocols m) tt out)
          (fun '(out, _) =>
          let buffer := "" in
          run_bind (print_each "tracker: " write_encoded
                      (address_trackers m) buffer out)
          (fun '(out, buffer) =>
          run_bind (print_each "exact source: " write_encoded
                      (exact_sources m) buffer out)
          (fun '(out, buffer) =>
          run_bind (print_each "topic: " write_encoded
                      (acceptable_sources m) buffer out)
          (fun '(out, buffer) =>
          run_bind (print_each "manifest topic: " write_encoded
                      (manifest_topics m) buffer out)
          (fun '(out, buffer) =>
          run_bind (print_each "web seed: " write_encoded
                      (web_seed m) buffer out)
          (fun '(out, buffer) =>
          let out := print_optional "keyword topic: " (keyword_topic m) out in
          let out := print_optional "display name: " (display_name m) out in
          Some (Returns (out, EXIT_SUCCESS))))))))))
      end
  | _ => Some (Returns (argv0 ++ newline ++ usage, EXIT_FAILURE))
  end.

End Rest.

(** The lookups and the output on the reference instance: keys compared
    after decoding, views written decoded. *)
Definition reference_streams : url_streams :=
  {| key_equal_encoded :=
       fun k e => String.eqb (@pct_chars reference_library e) k;
     write_encoded := @decoded reference_library |}.

(** *** The spec-free helpers of the further properties *)

(** The part of a path [to_infohash] returns. *)
Definition infohash_of_path (t : string_view) : exn string_view :=
  if negb (find_last_of t ":" =? npos)%N
  then substr_from t (size_add (find_last_of t ":") 1%N)
  else Returns t.

(** The part of a path [to_protocol] returns. *)
Definition protocol_of_path (t : string_view) : exn string_view :=
  substr t 0%N (find_last_of t ":").

(** The buffer a pass over a view by key leaves: the decoded value of the
    last parameter with that key, or what the buffer held when there is
    none. *)
Definition buffer_after {lib : url_library} (k : string)
  (ps : list query_param_view) (buf : string) : string :=
  fold_left (fun b p => if String.eqb (decoded (key p)) k
                        then decoded (value p) else b) ps buf.

(** What [main] writes for an accepted link, given the elements of the
    three views of exact topics: the link, then one line for each element
    of each view in the order of [main], then the two optional fields. *)
Definition success_output {lib : url_library} {io : url_streams}
  (m : magnet_link_view) (us : list url_view) (hs ps : list string_view)
  : string :=
  let keyed k := map value (filter (is_url_keyed k) (params (u_ m))) in
  let out := "link: " ++ url_text (u_ m) ++ newline in
  let out := out ++ lines "topic: " url_text us in
  let out := out ++ lines "hash: " (fun h => h) hs in
  let out := out ++ lines "protocol: " (fun h => h) ps in
  let out := out ++ lines "tracker: " write_encoded (keyed "tr") in
  let out := out ++ lines "exact source: " write_encoded (keyed "xs") in
  let out := out ++ lines "topic: " write_encoded (keyed "as") in
  let out := out ++ lines "manifest topic: " write_encoded (keyed "mt") in
  let out := out ++ lines "web seed: " write_encoded (keyed "ws") in
  let out := print_optional "keyword topic: " (keyword_topic m) out in
  print_optional "display name: " (display_name m) out.

(** The usage text's own link. *)
Definition usage_link : string :=
  "magnet:?xt=urn:btih:d2474e86c95b19b8bcfdb92bc12c9d44667cfa36&dn=Leaves+of+Grass+by+Walt+Whitman.epub&tr=udp%3A%2F%2Ftracker.example4.com%3A80&tr=udp%3A%2F%2Ftracker.example5.com%3A80&tr=udp%3A%2F%2Ftracker.example3.com%3A6969&tr=udp%3A%2F%2Ftracker.example2.com%3A80&tr=udp%3A%2F%2Ftracker.example1.com%3A1337".

Definition usage_view : magnet_link_view :=
  view_of (@parse_magnet_link reference_library usage_link).

(** A link whose first [dn] has no value. *)
Definition valueless_name_link : string :=
  "magnet:?xt=urn:btih:abc&dn&dn=later&x.dn&x.dn=found".

Definition valueless_name_view : magnet_link_view :=
  view_of (@parse_magnet_link reference_library valueless_name_link).

(** The link of [leaves_link] without its optional fields. *)
Definition bare_leaves_link : string :=
  "magnet:?xt=urn:btih:d2474e86c95b19b8bcfdb92bc12c9d44667cfa36".

Definition bare_leaves_url : url_view :=
  {| url_text := bare_leaves_link; scheme := "magnet"; encoded_path := "";
     params := [leaves_topic] |}.

(** * Properties *)

(** ** Texts *)

Lemma string_take_drop (n : nat) (s : string) :
  string_take n s ++ string_drop n s = s.
Proof.
  revert s; induction n as [|n IH]; intros [|c r]; simpl; try reflexivity.
  now rewrite IH.
Qed.

Lemma string_drop_succ (n : nat) (s : string) :
  string_drop (S n) s = string_drop 1 (string_drop n s).
Proof.
  revert s; induction n as [|n IH]; intros [|c r]; try reflexivity.
  change (string_drop (S (S n)) (String c r)) with (string_drop (S n) r).
  now rewrite IH.
Qed.

Lemma string_take_app (a b : string) :
  string_take (String.length a) (a ++ b) = a.
Proof.
  induction a as [|c a IH]; simpl.
  - now destruct b.
  - now rewrite IH.
Qed.

Lemma string_drop_app (a b : string) :
  string_drop (String.length a) (a ++ b) = b.
Proof.
  induction a as [|c a IH]; simpl; auto.
Qed.

Lemma substring_zero_take (n : nat) (s : string) :
  substring 0 n s = string_take n s.
Proof.
  revert s; induction n as [|n IH]; intros [|c r]; simpl; try reflexivity.
  now rewrite IH.
Qed.

Lemma substring_drop_take (k n : nat) (s : string) :
  substring k n s = string_take n (string_drop k s).
Proof.
  revert s; induction k as [|k IH]; intros s.
  - simpl string_drop.
    destruct s; [destruct n; reflexivity | apply substring_zero_take].
  - destruct s as [|c r]; simpl.
    + destruct n; reflexivity.
    + apply IH.
Qed.

Lemma string_take_all (s : string) : string_take (String.length s) s = s.
Proof.
  induction s as [|c r IH]; simpl; [reflexivity | now rewrite IH].
Qed.

Lemma string_take_length_ge (n : nat) (s : string) :
  String.length s <= n -> string_take n s = s.
Proof.
  revert s; induction n as [|n IH]; intros [|c r] H; simpl in *;
    try reflexivity; try lia.
  rewrite IH; [reflexivity | lia].
Qed.

Lemma string_eqb_eq (a b : string) : String.eqb a b = true <-> a = b.
Proof. apply String.eqb_eq. Qed.

Lemma extension_key_app (name d : string) :
  extension_key name d <-> d = "x." ++ name.
Proof.
  unfold extension_key; split.
  - intros [Ht Hd]. rewrite <- (string_take_drop 2 d), Ht, Hd. reflexivity.
  - intros ->. split; reflexivity.
Qed.

(** ** The last colon *)

Lemma rindex_none (t : string) (c : ascii) :
  rindex t c = None <-> forall i, String.get i t <> Some c.
Proof.
  induction t as [|a r IH]; simpl.
  - split; [intros _ i; destruct i; discriminate | reflexivity].
  - destruct (rindex r c) as [k|] eqn:E.
    + split; [discriminate|].
      intros H. exfalso.
      assert (Hn : Some k = None).
      { apply IH. intros i. apply (H (S i)). }
      discriminate.
    + destruct (Ascii.eqb a c) eqn:Eac.
      * split; [discriminate|].
        intros H. exfalso. apply (H 0). simpl.
        apply Ascii.eqb_eq in Eac. now subst.
      * split; [|reflexivity].
        intros _ [|i]; simpl.
        -- intros [= ->]. rewrite Ascii.eqb_refl in Eac. discriminate.
        -- now apply IH.
Qed.

(** The position [rindex] finds splits the text at its last [c]. *)
Lemma rindex_some (t : string) (c : ascii) (i : nat) :
  rindex t c = Some i ->
  exists a b, t = a ++ String c b /\ String.length a = i /\
              rindex b c = None.
Proof.
  revert i; induction t as [|x r IH]; simpl; intros i H; [discriminate|].
  destruct (rindex r c) as [k|] eqn:E.
  - injection H as <-.
    destruct (IH k eq_refl) as (a & b & -> & Hl & Hb).
    exists (String x a), b. simpl. now rewrite Hl.
  - destruct (Ascii.eqb x c) eqn:Exc; [|discriminate].
    injection H as <-. apply Ascii.eqb_eq in Exc. subst x.
    exists "", r. auto.
Qed.

(** Conversely, a text split at a [c] with none after it. *)
Lemma rindex_split (a b : string) (c : ascii) :
  rindex b c = None -> rindex (a ++ String c b) c = Some (String.length a).
Proof.
  intros Hb; induction a as [|x a IH]; simpl.
  - now rewrite Hb, Ascii.eqb_refl.
  - now rewrite IH.
Qed.

Lemma string_length_app (a b : string) :
  String.length (a ++ b) = String.length a + String.length b.
Proof. induction a; simpl; auto. Qed.

(** ** [substr] at the positions the transforms use *)

Lemma sv_size_app (a b : string) :
  sv_size (a ++ b) = (sv_size a + sv_size b)%N.
Proof. unfold sv_size. rewrite string_length_app. lia. Qed.

Lemma npos_value : npos = (2 ^ 64 - 1)%N.
Proof. reflexivity. Qed.

Lemma size_add_small (a b : size_t) :
  (a + b <= npos)%N -> size_add a b = (a + b)%N.
Proof.
  intros H. unfold size_add. apply N.mod_small.
  rewrite npos_value in H.
  change (2 ^ 64)%N with 18446744073709551616%N in *. lia.
Qed.

(** [t.substr(0, pos)] at a colon at [pos]: the text before it. *)
Lemma substr_before (a b : string) (c : ascii) :
  substr (a ++ String c b) 0%N (N.of_nat (String.length a)) = Returns a.
Proof.
  unfold substr.
  destruct (N.ltb_spec (sv_size (a ++ String c b)) 0%N) as [H|_]; [lia|].
  f_equal.
  rewrite N.sub_0_r, N.min_l.
  - rewrite Nat2N.id, substring_zero_take. apply string_take_app.
  - rewrite sv_size_app. unfold sv_size. lia.
Qed.

(** [t.substr(pos + 1)] at a colon at [pos]: the text after it. *)
Lemma substr_after (a b : string) (c : ascii) :
  (sv_size (a ++ String c b) <= npos)%N ->
  substr_from (a ++ String c b)
              (size_add (N.of_nat (String.length a)) 1%N) = Returns b.
Proof.
  intros Hfit.
  assert (Hsz : sv_size (a ++ String c b)
                = N.of_nat (String.length a + 1 + String.length b)).
  { unfold sv_size. rewrite string_length_app. simpl. f_equal. lia. }
  rewrite size_add_small by (rewrite Hsz in Hfit; lia).
  unfold substr_from, substr. rewrite Hsz in *.
  destruct (N.ltb_spec (N.of_nat (String.length a + 1 + String.length b))
                       (N.of_nat (String.length a) + 1)%N) as [H|_]; [lia|].
  f_equal.
  rewrite N.min_r by lia.
  rewrite substring_drop_take.
  replace (N.to_nat (N.of_nat (String.length a) + 1)%N)
    with (S (String.length a)) by lia.
  replace (N.to_nat (N.of_nat (String.length a + 1 + String.length b)
                     - (N.of_nat (String.length a) + 1))%N)
    with (String.length b) by lia.
  replace (string_drop (S (String.length a)) (a ++ String c b)) with b.
  - apply string_take_all.
  - rewrite string_drop_succ, string_drop_app. reflexivity.
Qed.

(** [t.substr(0, npos)]: the whole text. *)
Lemma substr_npos (t : string) :
  (sv_size t <= npos)%N -> substr t 0%N npos = Returns t.
Proof.
  intros Hfit. unfold substr.
  destruct (N.ltb_spec (sv_size t) 0%N) as [H|_]; [lia|].
  f_equal.
  rewrite N.sub_0_r, N.min_r by exact Hfit.
  unfold sv_size. rewrite Nat2N.id, substring_zero_take.
  apply string_take_all.
Qed.

(** [substr] from the start never throws. *)
Lemma substr_zero_returns (t : string) (n : size_t) :
  exists r, substr t 0%N n = Returns r.
Proof.
  unfold substr.
  destruct (N.ltb_spec (sv_size t) 0%N) as [H|_]; [lia|]. eauto.
Qed.

(** A position [find_last_of] found is inside the text, so [substr] from
    the next position never throws either. *)
Lemma rindex_bound (t : string) (c : ascii) (i : nat) :
  rindex t c = Some i -> i < String.length t.
Proof.
  intros H.
  destruct (rindex_some _ _ _ H) as (a & b & -> & <- & _).
  rewrite string_length_app. simpl. lia.
Qed.

Lemma substr_next_returns (t : string) (pos : size_t) :
  (pos < sv_size t)%N -> exists r, substr_from t (size_add pos 1%N) = Returns r.
Proof.
  intros Hpos. unfold substr_from, substr.
  assert (Hle : (size_add pos 1%N <= pos + 1)%N).
  { unfold size_add. apply N.Div0.mod_le. }
  destruct (N.ltb_spec (sv_size t) (size_add pos 1%N)) as [H|_]; [lia|]. eauto.
Qed.

Section Properties.

Context {lib : url_library}.

(** ** The decoding iterator *)

Lemma pct_chars_step (it : pct_iterator) :
  it <> "" -> pct_chars it = String (pct_deref it) (pct_chars (pct_incr it)).
Proof.
  destruct it as [|c r]; [congruence|]. intros _. simpl.
  destruct (Ascii.eqb c "%"); [|reflexivity].
  destruct r as [|h [|l r']]; reflexivity.
Qed.

Lemma pct_deref_head (it : pct_iterator) :
  pct_deref it = string_head (pct_chars it).
Proof.
  destruct it as [|c r]; [reflexivity|].
  now rewrite pct_chars_step.
Qed.

Lemma pct_chars_incr (it : pct_iterator) :
  pct_chars (pct_incr it) = string_drop 1 (pct_chars it).
Proof.
  destruct it as [|c r]; [reflexivity|].
  now rewrite (pct_chars_step (String c r)).
Qed.

Lemma std_next_succ (it : pct_iterator) (n : nat) :
  std_next it (S n) = pct_incr (std_next it n).
Proof. reflexivity. Qed.

Lemma std_next_succ_r (it : pct_iterator) (n : nat) :
  std_next it (S n) = std_next (pct_incr it) n.
Proof. unfold std_next. apply Nat.iter_succ_r. Qed.

(** [std::next(it, n)] has left [n] decoded characters behind. *)
Lemma pct_chars_next (it : pct_iterator) (n : nat) :
  pct_chars (std_next it n) = string_drop n (pct_chars it).
Proof.
  induction n as [|n IH].
  - reflexivity.
  - now rewrite std_next_succ, pct_chars_incr, IH, <- string_drop_succ.
Qed.

Lemma pct_incr_length (it : pct_iterator) :
  String.length (pct_incr it) <= String.length it.
Proof.
  destruct it as [|c r]; simpl; [lia|].
  destruct (Ascii.eqb c "%"); [|lia].
  destruct r as [|h [|l r']]; simpl; lia.
Qed.

Lemma std_next_length (it : pct_iterator) (n : nat) :
  String.length (std_next it n) <= String.length it.
Proof.
  induction n as [|n IH]; [simpl; lia|].
  rewrite std_next_succ. pose proof (pct_incr_length (std_next it n)). lia.
Qed.

Lemma std_next_empty (n : nat) : std_next "" n = "".
Proof. induction n as [|n IH]; [reflexivity|]. now rewrite std_next_succ, IH. Qed.

Lemma sv_between_end (it : pct_iterator) : sv_between it "" = it.
Proof.
  unfold sv_between. simpl. rewrite Nat.sub_0_r, substring_zero_take.
  apply string_take_all.
Qed.

Lemma sv_between_cons (c : ascii) (r last : string) :
  String.length last <= String.length r ->
  sv_between (String c r) last = String c (sv_between r last).
Proof.
  intros H. unfold sv_between. simpl String.length.
  replace (S (String.length r) - String.length last)
    with (S (String.length r - String.length last)) by lia.
  reflexivity.
Qed.

(** The encoded text between an iterator and the one [n] steps on decodes
    to the [n] characters passed. *)
Lemma pct_chars_between (n : nat) (it : pct_iterator) :
  pct_chars (sv_between it (std_next it n)) = string_take n (pct_chars it).
Proof.
  revert it; induction n as [|n IH]; intros it.
  - unfold sv_between. simpl std_next. rewrite Nat.sub_diag.
    destruct it; reflexivity.
  - rewrite std_next_succ_r.
    destruct it as [|c r].
    + simpl pct_incr. rewrite std_next_empty. reflexivity.
    + pose proof (std_next_length (pct_incr (String c r)) n) as Hlen.
      simpl pct_incr in *. simpl pct_chars.
      destruct (Ascii.eqb c "%") eqn:Ec.
      * destruct r as [|h [|l r']].
        -- rewrite std_next_empty, sv_between_end. simpl. rewrite Ec.
           destruct n; reflexivity.
        -- rewrite std_next_empty, sv_between_end. simpl. rewrite Ec.
           destruct n; reflexivity.
        -- rewrite !sv_between_cons by (simpl; lia).
           simpl. rewrite Ec. rewrite IH. reflexivity.
      * rewrite sv_between_cons by lia.
        simpl. rewrite Ec, IH. reflexivity.
Qed.

(** ** The exact-topic predicate *)

Lemma string_forallb_get (f : ascii -> bool) (s : string) :
  string_forallb f s = true <->
  forall i c, String.get i s = Some c -> f c = true.
Proof.
  induction s as [|a r IH]; simpl.
  - split; [intros _ i c; destruct i; discriminate | reflexivity].
  - rewrite andb_true_iff, IH. split.
    + intros [Ha Hr] [|i] c; simpl; [intros [= <-]; exact Ha | apply Hr].
    + intros H. split; [apply (H 0); reflexivity|].
      intros i c Hi. apply (H (S i)). exact Hi.
Qed.

Lemma digit_chars_range (c : ascii) :
  digit_chars c = true <->
  (N_of_ascii "0" <= N_of_ascii c <= N_of_ascii "9")%N.
Proof.
  unfold digit_chars, char_in.
  rewrite andb_true_iff, !N.leb_le. reflexivity.
Qed.

(** [is_exact_topic] looks at the decoded key only. *)
Lemma is_exact_topic_decoded (p : query_param_view) :
  is_exact_topic p = exact_topic_test (decoded (key p)).
Proof.
  unfold is_exact_topic, exact_topic_test, pct_eq, pct_size, pct_all_of.
  rewrite !pct_deref_head, !pct_chars_next. reflexivity.
Qed.

(** The test is the predicate of the specification. *)
Lemma exact_topic_test_spec (d : string) :
  exact_topic_test d = true <-> exact_topic_key d.
Proof.
  unfold exact_topic_test, exact_topic_key.
  destruct (String.eqb d "xt") eqn:Ext.
  - apply String.eqb_eq in Ext. tauto.
  - apply String.eqb_neq in Ext.
    rewrite !andb_true_iff, N.ltb_lt, !Ascii.eqb_eq, string_forallb_get.
    unfold sv_size.
    split.
    + intros ((((Hlen & H0) & H1) & H2) & Hd). right.
      destruct d as [|c0 [|c1 [|c2 [|c3 r]]]]; simpl in Hlen; try lia.
      simpl in H0, H1, H2. subst c0 c1 c2.
      split; [simpl; lia|]. do 3 (split; [reflexivity|]).
      intros [|[|[|i]]] c Hi Hget; try lia.
      apply digit_chars_range. apply (Hd i). exact Hget.
    + intros [Heq | (Hlen & H0 & H1 & H2 & Hd)]; [contradiction|].
      destruct d as [|c0 [|c1 [|c2 [|c3 r]]]]; simpl in Hlen; try lia.
      simpl in H0, H1, H2.
      injection H0 as ->. injection H1 as ->. injection H2 as ->.
      split; [|intros i c Hget].
      { repeat split; try reflexivity. simpl String.length. lia. } apply digit_chars_range.
      apply (Hd (3 + i)); [lia | exact Hget].
Qed.

(** C3: the exact-topic predicate.  [is_exact_topic] holds of a parameter
    exactly when its decoded key is [xt], or is longer than three
    characters, starts with [x], [t], [.] and has only ASCII digits after
    them.  So it accepts the keys [xt], [xt.1] and [xt.23], and rejects
    [xt.a], [xta], [xt.] (no digit), the empty key and [XT]. *)
Theorem is_exact_topic_spec :
  (forall p, is_exact_topic p = true <-> exact_topic_key (decoded (key p))) /\
  (forall p, decoded (key p) = "xt" -> is_exact_topic p = true) /\
  (forall p, decoded (key p) = "xt.1" -> is_exact_topic p = true) /\
  (forall p, decoded (key p) = "xt.23" -> is_exact_topic p = true) /\
  (forall p, decoded (key p) = "xt.a" -> is_exact_topic p = false) /\
  (forall p, decoded (key p) = "xta" -> is_exact_topic p = false) /\
  (forall p, decoded (key p) = "xt." -> is_exact_topic p = false) /\
  (forall p, decoded (key p) = "" -> is_exact_topic p = false) /\
  (forall p, decoded (key p) = "XT" -> is_exact_topic p = false).
Proof.
  split.
  - intros p. rewrite is_exact_topic_decoded. apply exact_topic_test_spec.
  - repeat split; intros p H; rewrite is_exact_topic_decoded, H; reflexivity.
Qed.

(** ** Extension parameters *)

Lemma bool_eq_by_iff (a b : bool) : (a = true <-> b = true) -> a = b.
Proof. destruct a, b; intuition congruence. Qed.

Lemma is_extension_param_key (name : string) (p : query_param_view) :
  is_extension_param name p = true <->
  extension_key name (decoded (key p)) /\ has_value p = true.
Proof.
  unfold is_extension_param.
  now rewrite andb_true_iff, String.eqb_eq, extension_key_app.
Qed.

(** One round of the loop of [param] makes the test of the specification. *)
Lemma param_round (name : string) (p : query_param_view) :
  (if (pct_size (key p) <? 2)%N then false
   else
     pct_eq {| encoded := sv_between (pct_begin (key p))
                            (std_next (pct_begin (key p)) 2) |} "x." &&
     pct_eq {| encoded := sv_between (std_next (pct_begin (key p)) 2)
                            (pct_end (key p)) |} name &&
     has_value p)
  = is_extension_param name p.
Proof.
  apply bool_eq_by_iff. rewrite is_extension_param_key.
  unfold pct_size, pct_eq, decoded, pct_end, pct_begin, sv_size.
  cbn [encoded].
  rewrite sv_between_end, pct_chars_between, pct_chars_next.
  unfold extension_key.
  destruct (N.ltb_spec
              (N.of_nat (String.length (pct_chars (encoded (key p))))) 2)
    as [Hshort|_]; cbv iota.
  - split; [discriminate|]. intros [[Ht _] _]. exfalso.
    destruct (pct_chars (encoded (key p))) as [|c0 [|c1 r]]; simpl in *;
      try discriminate; lia.
  - rewrite !andb_true_iff, !String.eqb_eq. tauto.
Qed.

Lemma param_from_find (name : string) (l : list query_param_view) :
  param_from l name = option_map value (find (is_extension_param name) l).
Proof.
  induction l as [|p l IH]; [reflexivity|].
  cbn [param_from find]. cbv zeta. rewrite <- (param_round name p).
  destruct (pct_size (key p) <? 2)%N; [exact IH|].
  match goal with |- context [if ?b then Some _ else _] => destruct b end;
    [reflexivity | exact IH].
Qed.

Lemma find_none_iff {A : Type} (f : A -> bool) (l : list A) :
  find f l = None <-> forall x, In x l -> f x = false.
Proof.
  split; [apply find_none|].
  induction l as [|a l IH]; intros H; [reflexivity|]. simpl.
  rewrite (H a (or_introl eq_refl)). apply IH.
  intros x Hx. apply H. now right.
Qed.

(** C8: extension parameters.  For every name [K], [param(K)] is the value
    of the first parameter, in query order, whose decoded key begins with
    [x.] and continues with exactly [K] and which has a value; there is no
    result exactly when no parameter is of that kind.  So a parameter
    [x.custom=value123] answers [param("custom")] with [value123], and a
    parameter keyed [custom] does not answer it. *)
Theorem param_spec (m : magnet_link_view) (K : string) :
  param m K = option_map value (find (is_extension_param K) (params (u_ m))) /\
  (forall v, param m K = Some v ->
     exists p, In p (params (u_ m)) /\
               extension_key K (decoded (key p)) /\
               has_value p = true /\ value p = v) /\
  (param m K = None <->
     forall p, In p (params (u_ m)) ->
               ~ (extension_key K (decoded (key p)) /\ has_value p = true)) /\
  (forall p, params (u_ m) = [p] -> decoded (key p) = "x.custom" ->
     has_value p = true -> encoded (value p) = "value123" ->
     option_map encoded (param m "custom") = Some "value123") /\
  (forall p, params (u_ m) = [p] -> decoded (key p) = "custom" ->
     param m "custom" = None).
Proof.
  unfold param. rewrite !param_from_find.
  split; [reflexivity|]. split; [|split; [|split]].
  - intros v Hv.
    destruct (find (is_extension_param K) (params (u_ m))) as [p|] eqn:Ef;
      [|discriminate].
    injection Hv as <-.
    apply find_some in Ef. destruct Ef as [Hin Hp].
    apply is_extension_param_key in Hp. destruct Hp as [Hk Hv].
    exists p. auto.
  - destruct (find (is_extension_param K) (params (u_ m))) as [p|] eqn:Ef.
    + split; [discriminate|]. intros H. exfalso.
      apply find_some in Ef. destruct Ef as [Hin Hp].
      apply (H p Hin). now apply is_extension_param_key.
    + split; [|reflexivity]. intros _ p Hin Hp.
      apply is_extension_param_key in Hp.
      rewrite find_none_iff in Ef. rewrite (Ef p Hin) in Hp. discriminate.
  - intros p -> Hk Hv He. simpl.
    unfold is_extension_param. rewrite Hk, Hv. simpl. now rewrite He.
  - intros p -> Hk. simpl.
    unfold is_extension_param. rewrite Hk. reflexivity.
Qed.

(** ** The lazy view *)

Section ViewLemmas.

Context {T V St : Type}.

Lemma fv_skip_loop (v : filtered_view T V St) (l : list T) :
  forall (fuel : nat) (st : St),
    List.length l < fuel ->
    (let (it, st') := fv_skip (fv_predicate v) l st in fv_loop fuel v it st')
    = Some (fv_scan (fv_predicate v) (fv_transform v) l st).
Proof.
  induction l as [|x r IH]; intros fuel st Hfuel.
  - destruct fuel; [inversion Hfuel | reflexivity].
  - simpl in Hfuel. cbn [fv_skip fv_scan].
    destruct (fv_predicate v x st) as [b st'] eqn:Epred.
    destruct b.
    + destruct fuel as [|fuel]; [lia|]. cbn [fv_loop fv_incr].
      destruct (fv_transform v x) as [y|e]; [|reflexivity].
      specialize (IH fuel st' ltac:(lia)).
      destruct (fv_skip (fv_predicate v) r st') as [it' st''].
      rewrite IH.
      destruct (fv_scan (fv_predicate v) (fv_transform v) r st').
      reflexivity.
    + apply IH. lia.
Qed.

(** A pass over a view always finishes: the fuel [iterate] gives the loop
    is enough, and the pass is the scan of the source. *)
Lemma iterate_scan (v : filtered_view T V St) (st : St) :
  iterate v st
  = Some (fv_scan (fv_predicate v) (fv_transform v) (fv_source v) st).
Proof.
  unfold iterate, fv_begin.
  apply (fv_skip_loop v (fv_source v) (S (List.length (fv_source v))) st).
  lia.
Qed.

(** With a predicate that has no state, the scan filters and transforms. *)
Lemma fv_scan_stateless (f : T -> bool) (tr : T -> exn V) (l : list T)
  (st : St) :
  fv_scan (stateless f) tr l st = (exn_sequence (map tr (filter f l)), st).
Proof.
  induction l as [|x r IH]; [reflexivity|].
  cbn [fv_scan filter]. unfold stateless at 1.
  destruct (f x); [|exact IH].
  cbn [map exn_sequence].
  destruct (tr x) as [y|e]; [|reflexivity].
  now rewrite IH.
Qed.

(** A predicate whose verdict does not depend on the state it is given
    yields the same elements from any state. *)
Lemma fv_scan_state_free (pr : T -> St -> bool * St) (tr : T -> exn V)
  (l : list T) :
  (forall x s1 s2, fst (pr x s1) = fst (pr x s2)) ->
  forall s1 s2, fst (fv_scan pr tr l s1) = fst (fv_scan pr tr l s2).
Proof.
  intros Hfree. induction l as [|x r IH]; intros s1 s2; [reflexivity|].
  cbn [fv_scan]. specialize (Hfree x s1 s2).
  destruct (pr x s1) as [b1 t1], (pr x s2) as [b2 t2]. simpl in Hfree.
  subst b2. destruct b1; [|apply IH].
  destruct (tr x) as [y|e]; [|reflexivity].
  specialize (IH t1 t2).
  destruct (fv_scan pr tr r t1), (fv_scan pr tr r t2). simpl in *.
  now rewrite IH.
Qed.

(** The cursor [begin()] returns does not depend on the state either. *)
Lemma fv_skip_state_free (pr : T -> St -> bool * St) (l : list T) :
  (forall x s1 s2, fst (pr x s1) = fst (pr x s2)) ->
  forall s1 s2, fst (fv_skip pr l s1) = fst (fv_skip pr l s2).
Proof.
  intros Hfree. induction l as [|x r IH]; intros s1 s2; [reflexivity|].
  cbn [fv_skip]. specialize (Hfree x s1 s2).
  destruct (pr x s1) as [b1 t1], (pr x s2) as [b2 t2]. simpl in Hfree.
  subst b2. destruct b1; [reflexivity | apply IH].
Qed.

Lemma exn_sequence_returns (tr : T -> exn V) (l : list T) :
  (forall x, In x l -> exists y, tr x = Returns y) ->
  exists ys, exn_sequence (map tr l) = Returns ys /\
             List.length ys = List.length l.
Proof.
  induction l as [|x r IH]; intros H.
  - exists []. auto.
  - destruct (H x (or_introl eq_refl)) as [y Hy].
    destruct IH as (ys & Hys & Hlen); [intros z Hz; apply H; now right|].
    exists (y :: ys). cbn [map exn_sequence]. rewrite Hy, Hys.
    split; [reflexivity | simpl; now rewrite Hlen].
Qed.

End ViewLemmas.

(** ** The predicate of the views by key *)

(** The verdict of [is_url_with_key] is the buffer-free test, whatever the
    buffer held before. *)
Lemma is_url_with_key_verdict (k : string) (p : query_param_view)
  (buf : string) :
  fst (is_url_with_key k p buf) = is_url_keyed k p.
Proof.
  unfold is_url_with_key, is_url_keyed, pct_ne, pct_eq, assign_to.
  destruct (String.eqb (decoded (key p)) k); reflexivity.
Qed.

(** The buffer it leaves: untouched on another key, the decoded value on
    its own key. *)
Lemma is_url_with_key_buffer (k : string) (p : query_param_view)
  (buf : string) :
  snd (is_url_with_key k p buf)
  = if String.eqb (decoded (key p)) k then decoded (value p) else buf.
Proof.
  unfold is_url_with_key, pct_ne, pct_eq, assign_to.
  destruct (String.eqb (decoded (key p)) k); reflexivity.
Qed.

Lemma url_keys_scan (k : string) (l : list query_param_view) (buf : string) :
  fst (fv_scan (is_url_with_key k) (total to_decoded_value) l buf)
  = Returns (map value (filter (is_url_keyed k) l)).
Proof.
  revert buf; induction l as [|p r IH]; intros buf; [reflexivity|].
  cbn [fv_scan filter].
  pose proof (is_url_with_key_verdict k p buf) as Hv.
  destruct (is_url_with_key k p buf) as [b buf']. simpl in Hv. subst b.
  destruct (is_url_keyed k p); [|apply IH].
  unfold total at 1. specialize (IH buf').
  destruct (fv_scan (is_url_with_key k) (total to_decoded_value) r buf').
  simpl in *. now rewrite IH.
Qed.

(** ** The grammar rule *)

Lemma find_if_split {A : Type} (f : A -> bool) (l : list A) :
  exists pre, l = (pre ++ find_if l f)%list /\
              (forall x, In x pre -> f x = false).
Proof.
  induction l as [|a l (pre & Hl & Hpre)]; simpl.
  - exists []. split; [reflexivity | intros x []].
  - destruct (f a) eqn:Ea.
    + exists []. split; [reflexivity | intros x []].
    + exists (a :: pre). split; [simpl; now rewrite <- Hl|].
      intros x [<- | Hx]; auto.
Qed.

Lemma find_if_head {A : Type} (f : A -> bool) (l : list A) (x : A)
  (r : list A) :
  find_if l f = x :: r -> f x = true /\ In x l.
Proof.
  induction l as [|a l IH]; simpl; [discriminate|].
  destruct (f a) eqn:Ea.
  - intros [= <- <-]. auto.
  - intros H. destruct (IH H). auto.
Qed.

Lemma find_if_end {A : Type} (f : A -> bool) (l : list A) :
  at_end (find_if l f) = true <-> forall x, In x l -> f x = false.
Proof.
  split.
  - intros H x Hx.
    destruct (find_if_split f l) as (pre & Hl & Hpre).
    destruct (find_if l f); [|discriminate].
    rewrite app_nil_r in Hl. subst pre. auto.
  - intros H. destruct (find_if l f) as [|x r] eqn:E; [reflexivity|].
    apply find_if_head in E. destruct E as [Hx Hin].
    rewrite (H x Hin) in Hx. discriminate.
Qed.

Lemma result_has_value_ok {A : Type} (r : result A) :
  result_has_value r = true <-> exists a, r = Ok a.
Proof.
  destruct r; simpl; split; eauto; try discriminate.
  intros [a H]. discriminate.
Qed.

(** The two checks of the rule together are the condition of the
    specification on the whole parameter sequence. *)
Lemma phase_two_valid (u : url_view) :
  at_end (find_if (params u) is_exact_topic) = false /\
  all_of (find_if (params u) is_exact_topic) topic_parses = true
  <-> exact_topics_valid u.
Proof.
  unfold exact_topics_valid, all_of.
  destruct (find_if_split is_exact_topic (params u)) as (pre & Hl & Hpre).
  split.
  - intros [Hne Hall]. split.
    + destruct (find_if (params u) is_exact_topic) as [|x r] eqn:E;
        [discriminate|].
      apply find_if_head in E. exists x. tauto.
    + intros p Hin Hp. rewrite Hl in Hin. apply in_app_or in Hin.
      destruct Hin as [Hin|Hin]; [rewrite (Hpre p Hin) in Hp; discriminate|].
      rewrite forallb_forall in Hall. specialize (Hall p Hin).
      unfold topic_parses in Hall. rewrite Hp in Hall. simpl in Hall.
      now apply result_has_value_ok.
  - intros [(x & Hin & Hx) Hall]. split.
    + destruct (at_end (find_if (params u) is_exact_topic)) eqn:E;
        [|reflexivity].
      rewrite find_if_end in E. rewrite (E x Hin) in Hx. discriminate.
    + apply forallb_forall. intros p Hp. unfold topic_parses.
      destruct (is_exact_topic p) eqn:Ep; [|reflexivity]. simpl.
      apply result_has_value_ok. apply Hall; [|exact Ep].
      rewrite Hl. apply in_or_app. now right.
Qed.

Lemma magnet_link_rule_unfold (s : string_view) :
  magnet_link_rule s =
  match absolute_uri_rule s with
  | (Err _, it) => (Err grammar_error_invalid, it)
  | (Ok u, it) =>
      if at_end (find_if (params u) is_exact_topic)
      then (Err grammar_error_invalid, it)
      else if negb (all_of (find_if (params u) is_exact_topic) topic_parses)
      then (Err grammar_error_invalid, it)
      else (Ok {| u_ := u |}, it)
  end.
Proof.
  unfold magnet_link_rule, grammar_parse_range.
  destruct (absolute_uri_rule s) as [[u|e] it]; reflexivity.
Qed.

(** The rule accepts exactly the generic URIs whose parameters pass. *)
Lemma magnet_link_rule_ok (s : string_view) (m : magnet_link_view)
  (it : string_view) :
  magnet_link_rule s = (Ok m, it) <->
  absolute_uri_rule s = (Ok (u_ m), it) /\ exact_topics_valid (u_ m).
Proof.
  rewrite magnet_link_rule_unfold, <- phase_two_valid.
  destruct (absolute_uri_rule s) as [[u|e] it0].
  - destruct (at_end (find_if (params u) is_exact_topic)) eqn:Eend.
    + split; [discriminate|]. intros [[= <- _] [H _]]. congruence.
    + destruct (all_of (find_if (params u) is_exact_topic) topic_parses)
        eqn:Eall; simpl.
      * split.
        -- intros [= <- <-]. simpl. auto.
        -- intros [[= -> ->] _]. now destruct m.
      * split; [discriminate|]. intros [[= <- _] [_ H]]. congruence.
  - split; [discriminate|]. intros [H _]. discriminate.
Qed.

(** Every rejection of the rule is [grammar::error::invalid]. *)
Lemma magnet_link_rule_err (s : string_view) (e : error_code)
  (it : string_view) :
  magnet_link_rule s = (Err e, it) -> e = grammar_error_invalid.
Proof.
  rewrite magnet_link_rule_unfold.
  destruct (absolute_uri_rule s) as [[u|e0] it0].
  - destruct (at_end _); [now intros [= <- _]|].
    destruct (negb _); [now intros [= <- _] | discriminate].
  - now intros [= <- _].
Qed.

(** The entry point accepts exactly when the rule does and nothing of the
    input is left. *)
Lemma parse_magnet_link_ok (s : string_view) (m : magnet_link_view) :
  parse_magnet_link s = Ok m <->
  absolute_uri_rule s = (Ok (u_ m), "") /\ exact_topics_valid (u_ m).
Proof.
  rewrite <- magnet_link_rule_ok.
  unfold parse_magnet_link, grammar_parse.
  destruct (magnet_link_rule s) as [[m'|e] it].
  - simpl. destruct (String.eqb_spec it "") as [->|Hne]; simpl.
    + split; [now intros [= ->] | now intros [= ->]].
    + split; [discriminate|]. intros [= -> ->]. congruence.
  - simpl. split; discriminate.
Qed.

(** The entry point accepts exactly what the rule accepts in full. *)
Lemma parse_magnet_link_rule (s : string_view) (m : magnet_link_view) :
  parse_magnet_link s = Ok m <-> magnet_link_rule s = (Ok m, "").
Proof. now rewrite parse_magnet_link_ok, magnet_link_rule_ok. Qed.

(** The rule rejects a URL one of whose exact topics does not parse, and
    leaves the cursor where the generic grammar left it. *)
Lemma magnet_link_rule_bad_topic (s : string_view) (u : url_view)
  (it : string_view) (p : query_param_view) (e : error_code) :
  absolute_uri_rule s = (Ok u, it) ->
  In p (params u) -> is_exact_topic p = true ->
  parse_uri (encoded (value p)) = Err e ->
  magnet_link_rule s = (Err grammar_error_invalid, it).
Proof.
  intros Hu Hin Hp He. rewrite magnet_link_rule_unfold, Hu.
  destruct (at_end (find_if (params u) is_exact_topic)) eqn:Eend;
    [reflexivity|].
  destruct (all_of (find_if (params u) is_exact_topic) topic_parses)
    eqn:Eall; [|reflexivity].
  exfalso.
  destruct (proj1 (phase_two_valid u) (conj Eend Eall)) as [_ Hall].
  destruct (Hall p Hin Hp) as [v Hv]. congruence.
Qed.

(** ** The transforms on a parameter whose value parses *)

Lemma to_url_ok (p : query_param_view) (u : url_view) :
  parse_uri (encoded (value p)) = Ok u -> to_url p = Returns u.
Proof. unfold to_url. now intros ->. Qed.

Lemma to_infohash_ok (p : query_param_view) (u : url_view) :
  parse_uri (encoded (value p)) = Ok u ->
  to_infohash p =
  if negb (find_last_of (encoded_path u) ":" =? npos)%N
  then substr_from (encoded_path u)
                   (size_add (find_last_of (encoded_path u) ":") 1%N)
  else Returns (encoded_path u).
Proof. unfold to_infohash. now intros ->. Qed.

Lemma to_protocol_ok (p : query_param_view) (u : url_view) :
  parse_uri (encoded (value p)) = Ok u ->
  to_protocol p
  = substr (encoded_path u) 0%N (find_last_of (encoded_path u) ":").
Proof. unfold to_protocol. now intros ->. Qed.

Lemma find_last_of_none (t : string) (c : ascii) :
  (forall i, String.get i t <> Some c) -> find_last_of t c = npos.
Proof.
  intros H. unfold find_last_of.
  apply rindex_none in H. now rewrite H.
Qed.

Lemma find_last_of_split (a b : string) (c : ascii) :
  (forall i, String.get i b <> Some c) ->
  find_last_of (a ++ String c b) c = N.of_nat (String.length a).
Proof.
  intros H. unfold find_last_of.
  apply rindex_none in H. now rewrite rindex_split.
Qed.

(** Neither [to_infohash] nor [to_protocol] throws once the value parses:
    a colon that was found is inside the path. *)
Lemma to_infohash_returns (p : query_param_view) (u : url_view) :
  parse_uri (encoded (value p)) = Ok u -> exists h, to_infohash p = Returns h.
Proof.
  intros H. rewrite (to_infohash_ok p u H).
  destruct (negb _) eqn:Epos; [|eauto].
  apply substr_next_returns.
  unfold find_last_of in *.
  destruct (rindex (encoded_path u) ":") as [i|] eqn:Ei.
  - apply rindex_bound in Ei. unfold sv_size. lia.
  - rewrite N.eqb_refl in Epos. discriminate.
Qed.

Lemma to_protocol_returns (p : query_param_view) (u : url_view) :
  parse_uri (encoded (value p)) = Ok u -> exists h, to_protocol p = Returns h.
Proof.
  intros H. rewrite (to_protocol_ok p u H). apply substr_zero_returns.
Qed.

(** With a colon in the path: the text after the last one, and the text
    before it. *)
Lemma transforms_at_last_colon (p : query_param_view) (u : url_view)
  (a b : string) :
  parse_uri (encoded (value p)) = Ok u ->
  (sv_size (encoded_path u) <= npos)%N ->
  encoded_path u = a ++ ":" ++ b -> colon_free b ->
  to_infohash p = Returns b /\ to_protocol p = Returns a.
Proof.
  intros Hu Hfit Hpath Hb.
  rewrite (to_infohash_ok p u Hu), (to_protocol_ok p u Hu), Hpath in *.
  change (a ++ ":" ++ b) with (a ++ String ":" b) in *.
  rewrite (find_last_of_split a b ":" Hb).
  split; [|apply substr_before].
  assert (Hlt : (N.of_nat (String.length a) < npos)%N).
  { rewrite sv_size_app in Hfit. unfold sv_size in Hfit.
    simpl String.length in Hfit. lia. }
  destruct (N.eqb_spec (N.of_nat (String.length a)) npos) as [E|_]; [lia|].
  simpl. now apply substr_after.
Qed.

(** Without a colon: both transforms return the path. *)
Lemma transforms_without_colon (p : query_param_view) (u : url_view) :
  parse_uri (encoded (value p)) = Ok u ->
  colon_free (encoded_path u) ->
  to_infohash p = Returns (encoded_path u) /\
  to_protocol p = substr (encoded_path u) 0%N npos.
Proof.
  intros Hu Hfree.
  rewrite (to_infohash_ok p u Hu), (to_protocol_ok p u Hu).
  rewrite (find_last_of_none _ _ Hfree), N.eqb_refl. auto.
Qed.

(** ** The views of exact topics *)

Lemma topic_view_scan {V : Type} (tr : query_param_view -> exn V)
  (l : list query_param_view) :
  iterate {| fv_source := l; fv_predicate := stateless is_exact_topic;
             fv_transform := tr |} tt
  = Some (exn_sequence (map tr (filter is_exact_topic l)), tt).
Proof. rewrite iterate_scan. simpl. now rewrite fv_scan_stateless. Qed.

(** A view whose parameters pass the rule's checks: every exact topic can
    be transformed, by each of the three transforms. *)
Lemma valid_topics_transform (u : url_view) (p : query_param_view) :
  exact_topics_valid u -> In p (filter is_exact_topic (params u)) ->
  (exists v, to_url p = Returns v) /\
  (exists h, to_infohash p = Returns h) /\
  (exists h, to_protocol p = Returns h).
Proof.
  intros [_ Hall] Hin. apply filter_In in Hin. destruct Hin as [Hin Hp].
  destruct (Hall p Hin Hp) as [v Hv].
  split; [exists v; now apply to_url_ok|].
  split; [now apply (to_infohash_returns p v) |
          now apply (to_protocol_returns p v)].
Qed.

Lemma valid_topics_nonempty (u : url_view) :
  exact_topics_valid u -> filter is_exact_topic (params u) <> [].
Proof.
  intros [(p & Hin & Hp) _] E.
  assert (H : In p (filter is_exact_topic (params u)))
    by (apply filter_In; auto).
  now rewrite E in H.
Qed.

(** ** The claims on the rule and the views *)

(** C1: what acceptance guarantees.  When the grammar rule accepts an
    input, whether or not it consumed all of it, the view's
    [exact_topics()] yields at least one element and every parameter that
    satisfies the exact-topic predicate has a value that parses as a URI;
    and when the generic grammar accepts an input one of whose exact
    topics has a value that does not parse, the rule rejects the input, and
    so does [parse_magnet_link], which accepts only what the rule accepts
    in full. *)
Theorem accepted_has_valid_exact_topics (s : string_view) :
  (forall m it, magnet_link_rule s = (Ok m, it) ->
     (exists t ts, iterate (exact_topics m) tt = Some (Returns (t :: ts), tt)) /\
     (forall p, In p (params (u_ m)) -> is_exact_topic p = true ->
                exists v, parse_uri (encoded (value p)) = Ok v)) /\
  (forall u it p e,
     absolute_uri_rule s = (Ok u, it) ->
     In p (params u) -> is_exact_topic p = true ->
     parse_uri (encoded (value p)) = Err e ->
     magnet_link_rule s = (Err grammar_error_invalid, it) /\
     parse_magnet_link s = Err grammar_error_invalid) /\
  (forall m, parse_magnet_link s = Ok m -> magnet_link_rule s = (Ok m, "")).
Proof.
  split; [|split].
  - intros m it Hm. apply magnet_link_rule_ok in Hm. destruct Hm as [_ Hvalid].
    split; [|exact (proj2 Hvalid)].
    unfold exact_topics. rewrite topic_view_scan.
    destruct (exn_sequence_returns to_url (filter is_exact_topic (params (u_ m))))
      as (ys & Hys & Hlen).
    { intros p Hp. now destruct (valid_topics_transform _ _ Hvalid Hp). }
    rewrite Hys.
    destruct ys as [|t ts]; [|eauto].
    apply valid_topics_nonempty in Hvalid.
    destruct (filter is_exact_topic (params (u_ m))); [congruence|discriminate].
  - intros u it p e Hu Hin Hp He.
    pose proof (magnet_link_rule_bad_topic s u it p e Hu Hin Hp He) as Hrule.
    split; [exact Hrule|].
    unfold parse_magnet_link, grammar_parse. now rewrite Hrule.
  - intros m. apply parse_magnet_link_rule.
Qed.

(** C2: the mandatory exact topic.  An input whose query has no parameter
    that satisfies the exact-topic predicate is rejected by
    [parse_magnet_link]: the result is an error, not a view. *)
Theorem no_exact_topic_rejected (s : string_view) :
  (forall u it, absolute_uri_rule s = (Ok u, it) ->
                forall p, In p (params u) -> is_exact_topic p = false) ->
  parse_magnet_link s = Err grammar_error_invalid /\
  forall m, parse_magnet_link s <> Ok m.
Proof.
  intros Hnone.
  assert (H : parse_magnet_link s = Err grammar_error_invalid).
  { unfold parse_magnet_link, grammar_parse.
    destruct (magnet_link_rule s) as [[m|e'] it'] eqn:Erule.
    - exfalso. apply magnet_link_rule_ok in Erule.
      destruct Erule as [Hu [(p & Hin & Hp) _]].
      rewrite (Hnone _ _ Hu p Hin) in Hp. discriminate.
    - apply magnet_link_rule_err in Erule. now subst e'. }
  split; [exact H | intros m; rewrite H; discriminate].
Qed.

(** C4: info hash and protocol.  For a parameter whose value parses as a
    URI, [to_infohash] returns the part of the URI's path after its last
    colon, or the whole path when it has no colon, and [to_protocol]
    returns the part before the last colon.  For the value
    [urn:btih:d2474e86c95b19b8bcfdb92bc12c9d44667cfa36], whose path is
    [btih:d2474e86c95b19b8bcfdb92bc12c9d44667cfa36], [info_hashes()] yields
    the hash and [protocols()] yields [btih]. *)
Theorem infohash_and_protocol (p : query_param_view) (u : url_view) :
  parse_uri (encoded (value p)) = Ok u ->
  (sv_size (encoded_path u) <= npos)%N ->
  (forall a b, encoded_path u = a ++ ":" ++ b -> colon_free b ->
     to_infohash p = Returns b /\ to_protocol p = Returns a) /\
  (colon_free (encoded_path u) -> to_infohash p = Returns (encoded_path u)) /\
  (encoded (value p) = "urn:btih:d2474e86c95b19b8bcfdb92bc12c9d44667cfa36" ->
   encoded_path u = "btih:d2474e86c95b19b8bcfdb92bc12c9d44667cfa36" ->
   forall m, filter is_exact_topic (params (u_ m)) = [p] ->
     iterate (info_hashes m) tt
       = Some (Returns ["d2474e86c95b19b8bcfdb92bc12c9d44667cfa36"], tt) /\
     iterate (protocols m) tt = Some (Returns ["btih"], tt)).
Proof.
  intros Hu Hfit. split; [|split].
  - intros a b Hpath Hb. now apply (transforms_at_last_colon p u a b).
  - intros Hfree. now apply transforms_without_colon.
  - intros _ Hpath m Hm.
    destruct (transforms_at_last_colon p u "btih"
                "d2474e86c95b19b8bcfdb92bc12c9d44667cfa36" Hu Hfit Hpath)
      as [Hh Hp].
    { unfold colon_free. apply rindex_none. reflexivity. }
    unfold info_hashes, protocols. rewrite !topic_view_scan, Hm.
    cbn [map exn_sequence]. now rewrite Hh, Hp.
Qed.

(** C5: trackers.  For an accepted link, a pass over
    [address_trackers(buffer)] finishes without an exception and yields, in
    query order, the values of exactly the parameters with key [tr] whose
    decoded value parses as a URI; on a parameter with key [tr] whose
    decoded value does not parse the predicate is false, so the parameter
    is passed over. *)
Theorem address_trackers_yields_valid (s : string_view)
  (m : magnet_link_view) (buffer : string) :
  parse_magnet_link s = Ok m ->
  (exists buffer',
     iterate (address_trackers m) buffer
     = Some (Returns (map to_decoded_value
                          (filter (is_url_keyed "tr") (params (u_ m)))),
             buffer')) /\
  (forall p, In p (filter (is_url_keyed "tr") (params (u_ m))) <->
             In p (params (u_ m)) /\ decoded (key p) = "tr" /\
             exists v, parse_uri (decoded (value p)) = Ok v) /\
  (forall p buf e, decoded (key p) = "tr" ->
                   parse_uri (decoded (value p)) = Err e ->
                   fst (is_url_with_key "tr" p buf) = false).
Proof.
  intros _. split; [|split].
  - unfold address_trackers. rewrite iterate_scan. cbn [url_keys fv_source
      fv_predicate fv_transform].
    pose proof (url_keys_scan "tr" (params (u_ m)) buffer) as H.
    destruct (fv_scan _ _ _ _) as [r buffer']. simpl in H. subst r.
    now exists buffer'.
  - intros p. rewrite filter_In. unfold is_url_keyed.
    now rewrite andb_true_iff, String.eqb_eq, result_has_value_ok.
  - intros p buf e Hk He. rewrite is_url_with_key_verdict.
    unfold is_url_keyed. rewrite He. apply andb_false_r.
Qed.

(** C6: no failure after validation.  For the view the grammar rule
    returns on acceptance, whether or not it consumed all of the input, a
    pass over [exact_topics()], [info_hashes()] or [protocols()] finishes
    and ends in no exception: on every parameter that satisfies the
    exact-topic predicate the URI parse inside the transform succeeds, and
    the transform returns. *)
Theorem accepted_views_do_not_throw (s : string_view) (m : magnet_link_view)
  (it : string_view) :
  magnet_link_rule s = (Ok m, it) ->
  (exists us hs ps,
     iterate (exact_topics m) tt = Some (Returns us, tt) /\
     iterate (info_hashes m) tt = Some (Returns hs, tt) /\
     iterate (protocols m) tt = Some (Returns ps, tt)) /\
  (forall p, In p (params (u_ m)) -> is_exact_topic p = true ->
     exists v h pr,
       parse_uri (encoded (value p)) = Ok v /\
       to_url p = Returns v /\
       to_infohash p = Returns h /\
       to_protocol p = Returns pr).
Proof.
  intros Hm. apply magnet_link_rule_ok in Hm. destruct Hm as [_ Hvalid].
  split.
  - unfold exact_topics, info_hashes, protocols. rewrite !topic_view_scan.
    destruct (exn_sequence_returns to_url (filter is_exact_topic (params (u_ m))))
      as (us & -> & _).
    { intros p Hp. now destruct (valid_topics_transform _ _ Hvalid Hp). }
    destruct (exn_sequence_returns to_infohash
                (filter is_exact_topic (params (u_ m)))) as (hs & -> & _).
    { intros p Hp.
      now destruct (valid_topics_transform _ _ Hvalid Hp) as (_ & ? & _). }
    destruct (exn_sequence_returns to_protocol
                (filter is_exact_topic (params (u_ m)))) as (ps & -> & _).
    { intros p Hp.
      now destruct (valid_topics_transform _ _ Hvalid Hp) as (_ & _ & ?). }
    now exists us, hs, ps.
  - intros p Hin Hp.
    destruct (proj2 Hvalid p Hin Hp) as [v Hv].
    destruct (to_infohash_returns p v Hv) as [h Hh].
    destruct (to_protocol_returns p v Hv) as [pr Hpr].
    exists v, h, pr. repeat split; auto using to_url_ok.
Qed.

(** C7: the scheme is not checked.  Whether the grammar rule accepts an
    input is decided by the generic grammar and by the exact-topic checks
    on the parameters alone, wherever the generic grammar stops: two
    inputs it accepts with the same parameters are both accepted or both
    rejected by the rule, whatever their schemes; the rule accepts exactly
    when the parameters pass the exact-topic checks; an accepted view
    carries the URL, and so the scheme, its input had; and
    [parse_magnet_link] accepts exactly when in addition nothing of the
    input is left. *)
Theorem acceptance_ignores_scheme (s1 s2 : string_view) (u1 u2 : url_view)
  (it1 it2 : string_view) :
  absolute_uri_rule s1 = (Ok u1, it1) ->
  absolute_uri_rule s2 = (Ok u2, it2) ->
  params u1 = params u2 ->
  ((exists m, magnet_link_rule s1 = (Ok m, it1)) <->
   (exists m, magnet_link_rule s2 = (Ok m, it2))) /\
  ((exists m, magnet_link_rule s1 = (Ok m, it1)) <-> exact_topics_valid u1) /\
  (forall m it, magnet_link_rule s2 = (Ok m, it) ->
     it = it2 /\ u_ m = u2 /\ scheme (u_ m) = scheme u2) /\
  ((exists m, parse_magnet_link s1 = Ok m) <->
   it1 = "" /\ exact_topics_valid u1) /\
  (it1 = "" -> it2 = "" ->
   ((exists m, parse_magnet_link s1 = Ok m) <->
    (exists m, parse_magnet_link s2 = Ok m))).
Proof.
  intros H1 H2 Hparams.
  assert (Hrule : forall s u it, absolute_uri_rule s = (Ok u, it) ->
            ((exists m, magnet_link_rule s = (Ok m, it))
             <-> exact_topics_valid u)).
  { intros s u it Hs. split.
    - intros [m Hm]. apply magnet_link_rule_ok in Hm.
      destruct Hm as [Hu Hvalid]. rewrite Hs in Hu. now injection Hu as ->.
    - intros Hvalid. exists {| u_ := u |}. apply magnet_link_rule_ok. auto. }
  assert (Hparse : forall s u it, absolute_uri_rule s = (Ok u, it) ->
            ((exists m, parse_magnet_link s = Ok m)
             <-> it = "" /\ exact_topics_valid u)).
  { intros s u it Hs. split.
    - intros [m Hm]. apply parse_magnet_link_ok in Hm.
      destruct Hm as [Hu Hvalid]. rewrite Hs in Hu.
      injection Hu as -> ->. auto.
    - intros [-> Hvalid]. exists {| u_ := u |}.
      apply parse_magnet_link_ok. auto. }
  assert (Hsame : exact_topics_valid u1 <-> exact_topics_valid u2).
  { unfold exact_topics_valid. now rewrite Hparams. }
  split; [|split; [|split; [|split]]].
  - rewrite (Hrule s1 u1 it1 H1), (Hrule s2 u2 it2 H2). exact Hsame.
  - exact (Hrule s1 u1 it1 H1).
  - intros m it Hm. apply magnet_link_rule_ok in Hm. destruct Hm as [Hu _].
    rewrite H2 in Hu. injection Hu as Hu Hit. now rewrite <- Hu.
  - exact (Hparse s1 u1 it1 H1).
  - intros E1 E2.
    rewrite (Hparse s1 u1 it1 H1), (Hparse s2 u2 it2 H2), Hsame. tauto.
Qed.

Lemma fv_begin_stateless {V : Type} (tr : query_param_view -> exn V)
  (f : query_param_view -> bool) (l : list query_param_view) :
  fst (fv_begin {| fv_source := l; fv_predicate := @stateless _ unit f;
                   fv_transform := tr |} tt) = find_if l f.
Proof.
  unfold fv_begin. cbn [fv_source fv_predicate].
  induction l as [|x r IH]; [reflexivity|].
  cbn [fv_skip find_if]. unfold stateless at 1.
  destruct (f x); [reflexivity | exact IH].
Qed.

Lemma fv_begin_url_keys (m : magnet_link_view) (k : string) (buf : string) :
  fst (fv_begin (url_keys m k) buf)
  = find_if (params (u_ m)) (is_url_keyed k).
Proof.
  unfold fv_begin. cbn [url_keys fv_source fv_predicate].
  revert buf. induction (params (u_ m)) as [|p r IH]; intros buf;
    [reflexivity|].
  cbn [fv_skip find_if].
  pose proof (is_url_with_key_verdict k p buf) as Hv.
  destruct (is_url_with_key k p buf) as [b buf']. simpl in Hv. subst b.
  destruct (is_url_keyed k p); [reflexivity | apply IH].
Qed.

(** Passes over a view of exact topics: each yields the transform of every
    exact-topic parameter of the source, in order, up to the first
    exception. *)
Lemma repeats_topics {V : Type} (tr : query_param_view -> exn V)
  (l : list query_param_view) :
  repeats {| fv_source := l;
             fv_predicate := @stateless _ unit is_exact_topic;
             fv_transform := tr |}
          (exn_sequence (map tr (filter is_exact_topic l))).
Proof.
  intros n []. exists tt.
  induction n as [|n IH]; [reflexivity|].
  cbn [passes repeat]. now rewrite topic_view_scan, IH.
Qed.

(** Passes over a view by key: each yields the values of the parameters of
    the source with that key whose decoded value parses, in order,
    whatever the buffer holds when the pass begins. *)
Lemma repeats_url_keys (m : magnet_link_view) (k : string) :
  repeats (url_keys m k)
          (Returns (map to_decoded_value
                        (filter (is_url_keyed k) (params (u_ m))))).
Proof.
  intros n. induction n as [|n IH]; intros buf.
  - now exists buf.
  - cbn [passes repeat]. rewrite iterate_scan.
    cbn [url_keys fv_source fv_predicate fv_transform].
    pose proof (url_keys_scan k (params (u_ m)) buf) as Hl.
    destruct (fv_scan _ _ _ _) as [r buf1]. simpl in Hl. subst r.
    destruct (IH buf1) as [buf' Hn]. exists buf'. now rewrite Hn.
Qed.

(** C9: passes are repeatable.  For every view and every accessor that
    returns a lazy view, every pass, the first as well as any later one,
    finishes and yields the same elements one by one: for the views of
    exact topics the transform of every exact-topic parameter of the query
    in order (or the first exception on the way), for the views by key the
    values of all parameters with the key whose decoded value parses.
    [begin()] is each time at the first element of the source that
    satisfies the predicate, and the only state a pass leaves, the decode
    buffer of the views by key, does not change what a later pass
    yields. *)
Theorem accessors_reiterate (m : magnet_link_view) :
  (repeats (exact_topics m)
     (exn_sequence (map to_url (filter is_exact_topic (params (u_ m))))) /\
   repeats (info_hashes m)
     (exn_sequence (map to_infohash (filter is_exact_topic (params (u_ m))))) /\
   repeats (protocols m)
     (exn_sequence (map to_protocol (filter is_exact_topic (params (u_ m)))))) /\
  (forall v k,
     In (v, k) [ (address_trackers m, "tr"); (exact_sources m, "xs");
                 (acceptable_sources m, "as"); (manifest_topics m, "mt");
                 (web_seed m, "ws") ] ->
     repeats v (Returns (map to_decoded_value
                             (filter (is_url_keyed k) (params (u_ m))))) /\
     forall buffer,
       fst (fv_begin v buffer) = find_if (params (u_ m)) (is_url_keyed k)) /\
  (fst (fv_begin (exact_topics m) tt)
     = find_if (params (u_ m)) is_exact_topic /\
   fst (fv_begin (info_hashes m) tt)
     = find_if (params (u_ m)) is_exact_topic /\
   fst (fv_begin (protocols m) tt)
     = find_if (params (u_ m)) is_exact_topic).
Proof.
  split; [|split].
  - repeat split; apply repeats_topics.
  - intros v k Hin.
    assert (Hv : v = url_keys m k).
    { simpl in Hin.
      repeat (destruct Hin as [[= <- <-]|Hin]; [reflexivity|]).
      destruct Hin. }
    subst v. split; [apply repeats_url_keys|].
    intros buffer. apply fv_begin_url_keys.
  - repeat split; apply fv_begin_stateless.
Qed.

(** C10: the protocol of a path without a colon.  When the path of an
    exact topic's URI has no colon, [find_last_of] gives [npos] and
    [substr(0, npos)] is the whole path: [to_protocol] returns the path,
    the same text [to_infohash] returns. *)
Theorem to_protocol_without_colon (p : query_param_view) (u : url_view) :
  parse_uri (encoded (value p)) = Ok u ->
  colon_free (encoded_path u) ->
  (sv_size (encoded_path u) <= npos)%N ->
  find_last_of (encoded_path u) ":" = npos /\
  to_protocol p = Returns (encoded_path u) /\
  to_infohash p = Returns (encoded_path u).
Proof.
  intros Hu Hfree Hfit.
  destruct (transforms_without_colon p u Hu Hfree) as [Hh Hp].
  split; [now apply find_last_of_none|].
  split; [|exact Hh].
  rewrite Hp. now apply substr_npos.
Qed.

End Properties.

(** * The example on the reference instance *)

Example leaves_link_accepted :
  @parse_magnet_link reference_library leaves_link = Ok leaves_view.
Proof. vm_compute. reflexivity. Qed.

Example trackers_link_accepted :
  @parse_magnet_link reference_library trackers_link = Ok trackers_view.
Proof. vm_compute. reflexivity. Qed.

Example encoded_key_is_exact_topic :
  @is_exact_topic reference_library (plain_param "%78%74" "urn:btih:abc")
  = true.
Proof. reflexivity. Qed.

Example space_in_topic_rejected :
  @parse_magnet_link reference_library "magnet:?xt=not a uri"
  = Err grammar_error_invalid.
Proof. vm_compute. reflexivity. Qed.

Example fragment_is_left_over :
  @parse_magnet_link reference_library "magnet:?xt=urn:btih:abc#frag"
  = Err grammar_error_leftover.
Proof. vm_compute. reflexivity. Qed.

Example leaves_trackers :
  @iterate _ _ _ (@address_trackers reference_library leaves_view) ""
  = Some (Returns [{| encoded := "udp%3A%2F%2Ftracker.example.com%3A80" |}],
          "udp://tracker.example.com:80").
Proof. vm_compute. reflexivity. Qed.

Example last_colon_position :
  find_last_of "a:b:c" ":" = 3%N /\ find_last_of "abc" ":" = npos.
Proof. split; reflexivity. Qed.

Example substr_past_the_end :
  substr "abc" 4%N 0%N = Throws out_of_range /\
  substr "abcdef" 2%N npos = Returns "cdef" /\
  substr "abcdef" 0%N npos = Returns "abcdef".
Proof. repeat split; vm_compute; reflexivity. Qed.

Example decoding_a_name :
  @decoded reference_library {| encoded := "Leaves+of%20Grass" |}
  = "Leaves of Grass" /\
  @pct_size reference_library {| encoded := "Leaves+of%20Grass" |} = 15%N.
Proof. split; reflexivity. Qed.

Example second_decoded_character :
  std_next "%78%74.1" 2 = ".1" /\
  sv_between "%78%74.1" ".1" = "%78%74".
Proof. split; reflexivity. Qed.

Example no_scheme_is_no_uri :
  rfc_parse_uri "nowhere" = Err (library_error 1) /\
  rfc_parse_uri "" = Err (library_error 1).
Proof. split; reflexivity. Qed.

(** ** Instances of the claims *)

Lemma accepted_has_valid_exact_topics_witness :
  (@magnet_link_rule reference_library magnet_fragment_link
   = (Ok {| u_ := magnet_scheme_url |}, "#frag") /\
   (exists t ts,
      @iterate _ _ _
        (@exact_topics reference_library {| u_ := magnet_scheme_url |}) tt
      = Some (Returns (t :: ts), tt)) /\
   (forall p, In p (params magnet_scheme_url) ->
              @is_exact_topic reference_library p = true ->
              exists v, rfc_parse_uri (encoded (value p)) = Ok v)) /\
  (@parse_magnet_link reference_library leaves_link = Ok leaves_view /\
   @magnet_link_rule reference_library leaves_link = (Ok leaves_view, "") /\
   exists t ts,
     @iterate _ _ _ (@exact_topics reference_library leaves_view) tt
     = Some (Returns (t :: ts), tt)) /\
  (rfc_absolute_uri bad_topic_link = (Ok bad_topic_url, "") /\
   In (plain_param "xt.2" "nothing") (params bad_topic_url) /\
   @is_exact_topic reference_library (plain_param "xt.2" "nothing") = true /\
   rfc_parse_uri "nothing" = Err (library_error 1) /\
   @magnet_link_rule reference_library bad_topic_link
   = (Err grammar_error_invalid, "") /\
   @parse_magnet_link reference_library bad_topic_link
   = Err grammar_error_invalid).
Proof.
  assert (Hfrag : @magnet_link_rule reference_library magnet_fragment_link
                  = (Ok {| u_ := magnet_scheme_url |}, "#frag"))
    by (vm_compute; reflexivity).
  assert (Hok : @parse_magnet_link reference_library leaves_link
                = Ok leaves_view) by (vm_compute; reflexivity).
  assert (Hbad : rfc_absolute_uri bad_topic_link = (Ok bad_topic_url, ""))
    by (vm_compute; reflexivity).
  assert (Hin : In (plain_param "xt.2" "nothing") (params bad_topic_url))
    by (simpl; auto).
  assert (Hxt : @is_exact_topic reference_library
                  (plain_param "xt.2" "nothing") = true) by reflexivity.
  assert (Herr : rfc_parse_uri "nothing" = Err (library_error 1))
    by (vm_compute; reflexivity).
  pose proof (@accepted_has_valid_exact_topics reference_library
                magnet_fragment_link) as (Hacc & _ & _).
  pose proof (@accepted_has_valid_exact_topics reference_library
                leaves_link) as (Hacc' & _ & Hfull).
  pose proof (@accepted_has_valid_exact_topics reference_library
                bad_topic_link) as (_ & Hrej & _).
  split; [|split].
  - split; [exact Hfrag|]. exact (Hacc _ _ Hfrag).
  - split; [exact Hok|]. split; [exact (Hfull _ Hok)|].
    exact (proj1 (Hacc' _ _ (Hfull _ Hok))).
  - repeat (split; [assumption|]).
    exact (Hrej bad_topic_url "" (plain_param "xt.2" "nothing")
             (library_error 1) Hbad Hin Hxt Herr).
Defined.

Lemma no_exact_topic_rejected_witness :
  (forall u it, rfc_absolute_uri no_topic_link = (Ok u, it) ->
     forall p, In p (params u) ->
               @is_exact_topic reference_library p = false) /\
  @parse_magnet_link reference_library no_topic_link
  = Err grammar_error_invalid /\
  forall m, @parse_magnet_link reference_library no_topic_link <> Ok m.
Proof.
  assert (Hnone : forall u it,
            rfc_absolute_uri no_topic_link = (Ok u, it) ->
            forall p, In p (params u) ->
                      @is_exact_topic reference_library p = false).
  { intros u it H. vm_compute in H. injection H as <- _.
    intros p [<- | []]. reflexivity. }
  split; [exact Hnone|].
  exact (@no_exact_topic_rejected reference_library no_topic_link Hnone).
Defined.

Lemma infohash_and_protocol_witness :
  rfc_parse_uri (encoded (value leaves_topic)) = Ok leaves_urn /\
  (sv_size (encoded_path leaves_urn) <= npos)%N /\
  @to_infohash reference_library leaves_topic
  = Returns "d2474e86c95b19b8bcfdb92bc12c9d44667cfa36" /\
  @to_protocol reference_library leaves_topic = Returns "btih" /\
  @iterate _ _ _ (@info_hashes reference_library leaves_view) tt
  = Some (Returns ["d2474e86c95b19b8bcfdb92bc12c9d44667cfa36"], tt) /\
  @iterate _ _ _ (@protocols reference_library leaves_view) tt
  = Some (Returns ["btih"], tt).
Proof.
  assert (Hu : @parse_uri reference_library (encoded (value leaves_topic))
               = Ok leaves_urn) by (vm_compute; reflexivity).
  assert (Hfit : (sv_size (encoded_path leaves_urn) <= npos)%N)
    by (vm_compute; discriminate).
  destruct (@infohash_and_protocol reference_library leaves_topic leaves_urn
              Hu Hfit) as (Hsplit & _ & Hviews).
  destruct (Hsplit "btih" "d2474e86c95b19b8bcfdb92bc12c9d44667cfa36"
              eq_refl) as [Hh Hp].
  { unfold colon_free. apply rindex_none. reflexivity. }
  split; [exact Hu|]. split; [exact Hfit|].
  split; [exact Hh|]. split; [exact Hp|].
  apply (Hviews eq_refl eq_refl leaves_view).
  vm_compute. reflexivity.
Defined.

Lemma address_trackers_yields_valid_witness :
  @parse_magnet_link reference_library trackers_link = Ok trackers_view /\
  (exists buffer',
     @iterate _ _ _ (@address_trackers reference_library trackers_view) ""
     = Some (Returns [ {| encoded := "udp%3A%2F%2Fa.example%3A80" |};
                       {| encoded := "http%3A%2F%2Fb.example%2Fannounce" |} ],
             buffer')) /\
  fst (@is_url_with_key reference_library "tr" (plain_param "tr" "nowhere") "")
  = false.
Proof.
  assert (Hok : @parse_magnet_link reference_library trackers_link
                = Ok trackers_view) by (vm_compute; reflexivity).
  destruct (@address_trackers_yields_valid reference_library trackers_link
              trackers_view "" Hok) as ([buffer' Hpass] & _ & Hskip).
  split; [exact Hok|]. split.
  - exists buffer'. rewrite Hpass. vm_compute. reflexivity.
  - apply (Hskip (plain_param "tr" "nowhere") "" (library_error 1));
      vm_compute; reflexivity.
Defined.

Lemma accepted_views_do_not_throw_witness :
  (@magnet_link_rule reference_library leaves_link = (Ok leaves_view, "") /\
   exists us hs ps,
     @iterate _ _ _ (@exact_topics reference_library leaves_view) tt
     = Some (Returns us, tt) /\
     @iterate _ _ _ (@info_hashes reference_library leaves_view) tt
     = Some (Returns hs, tt) /\
     @iterate _ _ _ (@protocols reference_library leaves_view) tt
     = Some (Returns ps, tt)) /\
  (@magnet_link_rule reference_library magnet_fragment_link
   = (Ok {| u_ := magnet_scheme_url |}, "#frag") /\
   exists us hs ps,
     @iterate _ _ _
       (@exact_topics reference_library {| u_ := magnet_scheme_url |}) tt
     = Some (Returns us, tt) /\
     @iterate _ _ _
       (@info_hashes reference_library {| u_ := magnet_scheme_url |}) tt
     = Some (Returns hs, tt) /\
     @iterate _ _ _
       (@protocols reference_library {| u_ := magnet_scheme_url |}) tt
     = Some (Returns ps, tt)).
Proof.
  assert (Hok : @magnet_link_rule reference_library leaves_link
                = (Ok leaves_view, "")) by (vm_compute; reflexivity).
  assert (Hfrag : @magnet_link_rule reference_library magnet_fragment_link
                  = (Ok {| u_ := magnet_scheme_url |}, "#frag"))
    by (vm_compute; reflexivity).
  split.
  - split; [exact Hok|].
    exact (proj1 (@accepted_views_do_not_throw reference_library leaves_link
                    leaves_view "" Hok)).
  - split; [exact Hfrag|].
    exact (proj1 (@accepted_views_do_not_throw reference_library
                    magnet_fragment_link {| u_ := magnet_scheme_url |}
                    "#frag" Hfrag)).
Defined.

Lemma acceptance_ignores_scheme_witness :
  rfc_absolute_uri magnet_fragment_link = (Ok magnet_scheme_url, "#frag") /\
  rfc_absolute_uri http_fragment_link = (Ok http_scheme_url, "#frag") /\
  params magnet_scheme_url = params http_scheme_url /\
  scheme http_scheme_url = "http" /\
  ((exists m, @magnet_link_rule reference_library magnet_fragment_link
              = (Ok m, "#frag")) <->
   (exists m, @magnet_link_rule reference_library http_fragment_link
              = (Ok m, "#frag"))) /\
  (exists m, @magnet_link_rule reference_library http_fragment_link
             = (Ok m, "#frag") /\ scheme (u_ m) = "http") /\
  (exists m, @parse_magnet_link reference_library http_scheme_link = Ok m /\
             scheme (u_ m) = "http").
Proof.
  assert (H1 : rfc_absolute_uri magnet_fragment_link
               = (Ok magnet_scheme_url, "#frag")) by (vm_compute; reflexivity).
  assert (H2 : rfc_absolute_uri http_fragment_link
               = (Ok http_scheme_url, "#frag")) by (vm_compute; reflexivity).
  assert (H3 : rfc_absolute_uri magnet_scheme_link
               = (Ok magnet_scheme_url, "")) by (vm_compute; reflexivity).
  assert (H4 : rfc_absolute_uri http_scheme_link
               = (Ok http_scheme_url, "")) by (vm_compute; reflexivity).
  destruct (@acceptance_ignores_scheme reference_library magnet_fragment_link
              http_fragment_link magnet_scheme_url http_scheme_url
              "#frag" "#frag" H1 H2 eq_refl) as (Hsame & _ & Hscheme & _).
  destruct (@acceptance_ignores_scheme reference_library magnet_scheme_link
              http_scheme_link magnet_scheme_url http_scheme_url
              "" "" H3 H4 eq_refl) as (_ & _ & Hscheme' & _).
  repeat (split; [first [assumption | reflexivity]|]).
  assert (Hm : @magnet_link_rule reference_library http_fragment_link
               = (Ok {| u_ := http_scheme_url |}, "#frag"))
    by (vm_compute; reflexivity).
  assert (Hm' : @magnet_link_rule reference_library http_scheme_link
                = (Ok {| u_ := http_scheme_url |}, ""))
    by (vm_compute; reflexivity).
  split.
  - exists {| u_ := http_scheme_url |}.
    split; [exact Hm | exact (proj2 (proj2 (Hscheme _ _ Hm)))].
  - exists {| u_ := http_scheme_url |}.
    split; [vm_compute; reflexivity | exact (proj2 (proj2 (Hscheme' _ _ Hm')))].
Defined.

Lemma to_protocol_without_colon_witness :
  rfc_parse_uri (encoded (value bare_topic)) = Ok bare_urn /\
  colon_free (encoded_path bare_urn) /\
  (sv_size (encoded_path bare_urn) <= npos)%N /\
  find_last_of "abcdef" ":" = npos /\
  @to_protocol reference_library bare_topic = Returns "abcdef" /\
  @to_infohash reference_library bare_topic = Returns "abcdef".
Proof.
  assert (Hu : @parse_uri reference_library (encoded (value bare_topic))
               = Ok bare_urn) by (vm_compute; reflexivity).
  assert (Hfree : colon_free (encoded_path bare_urn))
    by (unfold colon_free; apply rindex_none; reflexivity).
  assert (Hfit : (sv_size (encoded_path bare_urn) <= npos)%N)
    by (vm_compute; discriminate).
  split; [exact Hu|]. split; [exact Hfree|]. split; [exact Hfit|].
  exact (@to_protocol_without_colon reference_library bare_topic bare_urn
           Hu Hfree Hfit).
Defined.

Lemma is_exact_topic_spec_witness :
  @is_exact_topic reference_library (plain_param "xt.23" "urn:btih:abc")
  = true /\
  @is_exact_topic reference_library (plain_param "%78%74%2E1" "urn:btih:abc")
  = true /\
  @is_exact_topic reference_library (plain_param "xt." "urn:btih:abc")
  = false /\
  @is_exact_topic reference_library (plain_param "XT" "urn:btih:abc")
  = false.
Proof.
  destruct (@is_exact_topic_spec reference_library)
    as (_ & _ & H1 & H23 & _ & _ & Hdot & _ & Hcase).
  split; [apply H23; reflexivity|].
  split; [apply H1; reflexivity|].
  split; [apply Hdot; reflexivity | apply Hcase; reflexivity].
Defined.

Lemma param_spec_witness :
  @param reference_library trackers_view "custom"
  = Some {| encoded := "value123" |} /\
  @param reference_library leaves_view "custom" = None.
Proof.
  destruct (@param_spec reference_library trackers_view "custom")
    as (Hfind & _).
  destruct (@param_spec reference_library leaves_view "custom")
    as (Hnone & _).
  split; [rewrite Hfind | rewrite Hnone]; vm_compute; reflexivity.
Defined.

Lemma accessors_reiterate_witness :
  (exists buffer',
     passes 3 (@address_trackers reference_library trackers_view) ""
     = Some (repeat
               (Returns [ {| encoded := "udp%3A%2F%2Fa.example%3A80" |};
                          {| encoded := "http%3A%2F%2Fb.example%2Fannounce" |} ])
               3, buffer')) /\
  passes 2 (@info_hashes reference_library trackers_view) tt
  = Some ([Returns ["abc"]; Returns ["abc"]], tt) /\
  passes 2 (@exact_topics reference_library
              {| u_ := bad_topic_url |}) tt
  = Some ([Throws bad_result_access; Throws bad_result_access], tt).
Proof.
  destruct (@accessors_reiterate reference_library trackers_view)
    as ((_ & Hhashes & _) & Hkeys & _).
  destruct (@accessors_reiterate reference_library {| u_ := bad_topic_url |})
    as ((Htopics & _) & _).
  split; [|split].
  - destruct (proj1 (Hkeys _ "tr" (or_introl eq_refl)) 3 "")
      as [buffer' Hp].
    exists buffer'. rewrite Hp. vm_compute. reflexivity.
  - destruct (Hhashes 2 tt) as [[] Hp]. rewrite Hp. vm_compute. reflexivity.
  - destruct (Htopics 2 tt) as [[] Hp]. rewrite Hp. vm_compute. reflexivity.
Defined.

(** * Further properties of the example *)

Section FurtherProperties.

Context {lib : url_library} {io : url_streams}.

(** ** Sequences of transform results *)

Lemma exn_sequence_forall2 {A B : Type} (f : A -> exn B) (l : list A)
  (ys : list B) :
  exn_sequence (map f l) = Returns ys <->
  Forall2 (fun x y => f x = Returns y) l ys.
Proof.
  revert ys; induction l as [|x r IH]; intros ys; cbn [map exn_sequence].
  - split.
    + intros [= <-]. constructor.
    + intros H. inversion H. reflexivity.
  - destruct (f x) as [y|e] eqn:Ex.
    + destruct (exn_sequence (map f r)) as [zs|e] eqn:Er; simpl.
      * split.
        -- intros [= <-]. constructor; [exact Ex | now apply IH].
        -- intros H. inversion H as [|? y' ? zs' Hy Hzs]; subst.
           apply IH in Hzs. congruence.
      * split; [discriminate|].
        intros H. inversion H as [|? y' ? zs' Hy Hzs]; subst.
        apply IH in Hzs. discriminate.
    + split; [discriminate|].
      intros H. inversion H; subst. congruence.
Qed.

Lemma to_infohash_of_path (p : query_param_view) (u : url_view) :
  parse_uri (encoded (value p)) = Ok u ->
  to_infohash p = infohash_of_path (encoded_path u).
Proof. intros H. now rewrite (to_infohash_ok p u H). Qed.

Lemma to_protocol_of_path (p : query_param_view) (u : url_view) :
  parse_uri (encoded (value p)) = Ok u ->
  to_protocol p = protocol_of_path (encoded_path u).
Proof. intros H. now rewrite (to_protocol_ok p u H). Qed.

Lemma to_url_returns_iff (p : query_param_view) (u : url_view) :
  to_url p = Returns u <-> parse_uri (encoded (value p)) = Ok u.
Proof.
  unfold to_url. destruct (parse_uri (encoded (value p))); simpl;
    split; congruence.
Qed.

(** X1: when the transforms throw.  [to_url], [to_infohash] and
    [to_protocol] throw exactly when the value of the parameter does not
    parse as a URI, all three together, and what they throw is the error
    of [result::value()]: [substr] is never called past the end of the
    path. *)
Theorem transforms_throw_only_unparsed (p : query_param_view) :
  (forall ec, parse_uri (encoded (value p)) = Err ec ->
     to_url p = Throws bad_result_access /\
     to_infohash p = Throws bad_result_access /\
     to_protocol p = Throws bad_result_access) /\
  (forall e,
     to_url p = Throws e \/ to_infohash p = Throws e \/
     to_protocol p = Throws e ->
     e = bad_result_access /\
     exists ec, parse_uri (encoded (value p)) = Err ec).
Proof.
  split.
  - intros ec H. unfold to_url, to_infohash, to_protocol.
    rewrite H. auto.
  - intros e H.
    destruct (parse_uri (encoded (value p))) as [u|ec] eqn:Eu.
    + exfalso.
      destruct (to_infohash_returns p u Eu) as [h Hh].
      destruct (to_protocol_returns p u Eu) as [pr Hpr].
      rewrite (to_url_ok p u Eu), Hh, Hpr in H.
      destruct H as [H|[H|H]]; discriminate.
    + unfold to_url, to_infohash, to_protocol in H. rewrite Eu in H.
      simpl in H. split; [|eauto].
      destruct H as [H|[H|H]]; congruence.
Qed.

(** X2: protocol and info hash make up the path.  When the path of an
    exact topic's URI has a colon, the protocol, a colon and the info hash
    are the path again, and the info hash has no colon. *)
Theorem protocol_and_infohash_reassemble (p : query_param_view)
  (u : url_view) :
  parse_uri (encoded (value p)) = Ok u ->
  (sv_size (encoded_path u) <= npos)%N ->
  ~ colon_free (encoded_path u) ->
  exists pr h,
    to_protocol p = Returns pr /\ to_infohash p = Returns h /\
    encoded_path u = pr ++ ":" ++ h /\ colon_free h.
Proof.
  intros Hu Hfit Hcolon.
  destruct (rindex (encoded_path u) ":") as [i|] eqn:Ei.
  - destruct (rindex_some _ _ _ Ei) as (a & b & Hpath & _ & Hb).
    assert (Hfree : colon_free b) by (unfold colon_free; now apply rindex_none).
    destruct (transforms_at_last_colon p u a b Hu Hfit Hpath Hfree)
      as [Hh Hp].
    exists a, b. auto.
  - exfalso. apply Hcolon. unfold colon_free. now apply rindex_none.
Qed.

Lemma topics_forall2 (l : list query_param_view) (us : list url_view) :
  Forall2 (fun p u => parse_uri (encoded (value p)) = Ok u) l us ->
  exists hs ps,
    exn_sequence (map to_infohash l) = Returns hs /\
    exn_sequence (map to_protocol l) = Returns ps /\
    Forall2 (fun u h => infohash_of_path (encoded_path u) = Returns h) us hs /\
    Forall2 (fun u pr => protocol_of_path (encoded_path u) = Returns pr) us ps.
Proof.
  induction 1 as [|p u l us Hu _ (hs & ps & Hhs & Hps & Fh & Fp)].
  - exists [], []. repeat split; constructor.
  - destruct (to_infohash_returns p u Hu) as [h Hh].
    destruct (to_protocol_returns p u Hu) as [pr Hpr].
    exists (h :: hs), (pr :: ps). cbn [map exn_sequence].
    rewrite Hh, Hpr, Hhs, Hps. repeat split; try reflexivity.
    + constructor; [|exact Fh]. now rewrite <- (to_infohash_of_path p u Hu).
    + constructor; [|exact Fp]. now rewrite <- (to_protocol_of_path p u Hu).
Qed.

(** X3: the three views of exact topics run in step.  Whenever a pass over
    [exact_topics()] ends without an exception, its elements are the parsed
    values of the exact-topic parameters in query order, and passes over
    [info_hashes()] and [protocols()] end without an exception too and
    yield, position by position, the info hash and the protocol of the
    path of the URI [exact_topics()] yields there. *)
Theorem topic_views_run_in_step (m : magnet_link_view) (us : list url_view) :
  iterate (exact_topics m) tt = Some (Returns us, tt) ->
  Forall2 (fun p u => parse_uri (encoded (value p)) = Ok u)
          (filter is_exact_topic (params (u_ m))) us /\
  exists hs ps,
    iterate (info_hashes m) tt = Some (Returns hs, tt) /\
    iterate (protocols m) tt = Some (Returns ps, tt) /\
    Forall2 (fun u h => infohash_of_path (encoded_path u) = Returns h) us hs /\
    Forall2 (fun u pr => protocol_of_path (encoded_path u) = Returns pr) us ps.
Proof.
  unfold exact_topics, info_hashes, protocols.
  rewrite !topic_view_scan. intros [= H].
  apply exn_sequence_forall2 in H.
  assert (H' : Forall2 (fun p u => parse_uri (encoded (value p)) = Ok u)
                 (filter is_exact_topic (params (u_ m))) us).
  { eapply Forall2_impl; [|exact H]. intros p u. apply to_url_returns_iff. }
  split; [exact H'|].
  destruct (topics_forall2 _ _ H') as (hs & ps & -> & -> & Fh & Fp).
  now exists hs, ps.
Qed.

(** ** The views by key and their buffer *)

Lemma url_keys_scan_buffer (k : string) (l : list query_param_view)
  (buf : string) :
  snd (fv_scan (is_url_with_key k) (total to_decoded_value) l buf)
  = buffer_after k l buf.
Proof.
  unfold buffer_after.
  revert buf; induction l as [|p r IH]; intros buf; [reflexivity|].
  cbn [fv_scan fold_left].
  pose proof (is_url_with_key_buffer k p buf) as Hb.
  destruct (is_url_with_key k p buf) as [b buf']. simpl in Hb. subst buf'.
  destruct b.
  - unfold total at 1. specialize (IH
      (if String.eqb (decoded (key p)) k then decoded (value p) else buf)).
    destruct (fv_scan (is_url_with_key k) (total to_decoded_value) r _).
    exact IH.
  - apply IH.
Qed.

Lemma url_keys_pass (m : magnet_link_view) (k : string) (buffer : string) :
  iterate (url_keys m k) buffer
  = Some (Returns (map to_decoded_value
                       (filter (is_url_keyed k) (params (u_ m)))),
          buffer_after k (params (u_ m)) buffer).
Proof.
  rewrite iterate_scan. cbn [url_keys fv_source fv_predicate fv_transform].
  pose proof (url_keys_scan k (params (u_ m)) buffer) as Hl.
  pose proof (url_keys_scan_buffer k (params (u_ m)) buffer) as Hb.
  destruct (fv_scan _ _ _ _) as [r b]. simpl in Hl, Hb. now subst.
Qed.

(** X4: a pass over a view by key.  For each of [address_trackers],
    [exact_sources], [acceptable_sources], [manifest_topics] and
    [web_seed], and whatever the buffer holds, a pass ends without an
    exception, yields in query order the values of the parameters with the
    accessor's key whose decoded value parses as a URI, and leaves in the
    buffer the decoded value of the last parameter with that key, parsed or
    not; without such a parameter the buffer is untouched. *)
Theorem keyed_views_pass (m : magnet_link_view) (buffer : string) :
  forall v k,
    In (v, k) [ (address_trackers m, "tr"); (exact_sources m, "xs");
                (acceptable_sources m, "as"); (manifest_topics m, "mt");
                (web_seed m, "ws") ] ->
    iterate v buffer
    = Some (Returns (map to_decoded_value
                         (filter (is_url_keyed k) (params (u_ m)))),
            buffer_after k (params (u_ m)) buffer) /\
    ((forall p, In p (params (u_ m)) -> decoded (key p) <> k) ->
     buffer_after k (params (u_ m)) buffer = buffer) /\
    (forall pre p rest,
       params (u_ m) = (pre ++ p :: rest)%list ->
       decoded (key p) = k ->
       (forall q, In q rest -> decoded (key q) <> k) ->
       buffer_after k (params (u_ m)) buffer = decoded (value p)).
Proof.
  intros v k Hin.
  assert (Hv : v = url_keys m k).
  { simpl in Hin.
    repeat (destruct Hin as [[= <- <-]|Hin]; [reflexivity|]).
    destruct Hin. }
  subst v. split; [apply url_keys_pass|].
  assert (Hnone : forall l b,
            (forall p, In p l -> decoded (key p) <> k) ->
            buffer_after k l b = b).
  { unfold buffer_after. induction l as [|p l IH]; intros b H; [reflexivity|].
    cbn [fold_left].
    destruct (String.eqb_spec (decoded (key p)) k) as [E|_].
    - exfalso. apply (H p); [now left | exact E].
    - apply IH. intros q Hq. apply H. now right. }
  split; [apply Hnone|].
  intros pre p rest -> Hk Hrest.
  unfold buffer_after. rewrite fold_left_app. cbn [fold_left].
  rewrite Hk, String.eqb_refl. now apply Hnone.
Qed.

(** ** The rule: what decides, and what it returns *)

(** X5: only exact topics decide.  Two inputs the generic grammar accepts
    in full and whose parameter sequences hold the same exact topics are
    both accepted or both rejected: parameters that are no exact topics,
    and the order of the parameters, have no part in the verdict. *)
Theorem acceptance_depends_on_exact_topics (s1 s2 : string_view)
  (u1 u2 : url_view) :
  absolute_uri_rule s1 = (Ok u1, "") ->
  absolute_uri_rule s2 = (Ok u2, "") ->
  (forall p, is_exact_topic p = true ->
             (In p (params u1) <-> In p (params u2))) ->
  ((exists m, parse_magnet_link s1 = Ok m) <->
   (exists m, parse_magnet_link s2 = Ok m)).
Proof.
  intros H1 H2 Hsame.
  assert (Hacc : forall s u, absolute_uri_rule s = (Ok u, "") ->
            ((exists m, parse_magnet_link s = Ok m) <-> exact_topics_valid u)).
  { intros s u Hs. split.
    - intros [m Hm]. apply parse_magnet_link_ok in Hm.
      destruct Hm as [Hu Hvalid]. rewrite Hs in Hu. now injection Hu as ->.
    - intros Hvalid. exists {| u_ := u |}. apply parse_magnet_link_ok. auto. }
  rewrite (Hacc s1 u1 H1), (Hacc s2 u2 H2).
  unfold exact_topics_valid. split.
  - intros [(p & Hin & Hp) Hall]. split.
    + exists p. split; [now apply Hsame | exact Hp].
    + intros q Hq Hxt. apply Hall; [now apply Hsame | exact Hxt].
  - intros [(p & Hin & Hp) Hall]. split.
    + exists p. split; [now apply Hsame | exact Hp].
    + intros q Hq Hxt. apply Hall; [now apply Hsame | exact Hxt].
Qed.

(** X6: what a rejection says, and where the cursor is.  The rule leaves
    the cursor where the generic grammar left it, on acceptance and on
    rejection alike, and rejects with [grammar::error::invalid] only: the
    error code of the generic grammar is not passed on.
    [parse_magnet_link] fails with [invalid] or with [leftover], and with
    [leftover] exactly when the rule accepted a proper prefix of the
    input. *)
Theorem rule_results (s : string_view) :
  snd (magnet_link_rule s) = snd (absolute_uri_rule s) /\
  (forall e it, magnet_link_rule s = (Err e, it) ->
                e = grammar_error_invalid) /\
  (forall ec it, absolute_uri_rule s = (Err ec, it) ->
                 parse_magnet_link s = Err grammar_error_invalid) /\
  (forall e, parse_magnet_link s = Err e ->
             e = grammar_error_invalid \/ e = grammar_error_leftover) /\
  (parse_magnet_link s = Err grammar_error_leftover <->
   exists m it, magnet_link_rule s = (Ok m, it) /\ it <> "").
Proof.
  split; [|split; [|split; [|split]]].
  - rewrite magnet_link_rule_unfold.
    destruct (absolute_uri_rule s) as [[u|e] it]; [|reflexivity].
    destruct (at_end _); [reflexivity|]. destruct (negb _); reflexivity.
  - intros e it. apply magnet_link_rule_err.
  - intros ec it H. unfold parse_magnet_link, grammar_parse.
    rewrite magnet_link_rule_unfold, H. reflexivity.
  - intros e. unfold parse_magnet_link, grammar_parse.
    destruct (magnet_link_rule s) as [[m|e'] it] eqn:Erule; simpl.
    + destruct (negb (String.eqb it "")); [|discriminate].
      intros [= <-]. now right.
    + intros [= <-]. left. now apply (magnet_link_rule_err s e' it).
  - unfold parse_magnet_link, grammar_parse.
    destruct (magnet_link_rule s) as [[m|e'] it] eqn:Erule; simpl.
    + destruct (String.eqb_spec it "") as [->|Hne]; simpl.
      * split; [discriminate|]. intros (m' & it' & [= _ <-] & Hne).
        congruence.
      * split; [|reflexivity]. intros _. now exists m, it.
    + split.
      * intros [= ->]. apply magnet_link_rule_err in Erule. discriminate.
      * intros (m' & it' & H & _). discriminate.
Qed.

(** ** A parameter is of one kind *)

Lemma exact_topic_test_prefix (d : string) :
  exact_topic_test d = true -> string_take 2 d = "xt".
Proof.
  unfold exact_topic_test.
  destruct (String.eqb_spec d "xt") as [->|_]; [reflexivity|].
  rewrite !andb_true_iff, !Ascii.eqb_eq.
  intros ((((_ & H0) & H1) & _) & _).
  destruct d as [|c0 [|c1 r]]; simpl in *; try discriminate; congruence.
Qed.

(** X7: an exact topic is nothing else.  On a parameter that satisfies
    [is_exact_topic], the predicate of each of the five views by key is
    false, whatever the buffer, and [param] finds nothing under any name:
    no parameter is listed both as an exact topic and as a tracker, a
    source, a manifest, a seed or an extension parameter. *)
Theorem exact_topic_is_nothing_else (p : query_param_view) :
  is_exact_topic p = true ->
  (forall k buf, In k ["tr"; "xs"; "as"; "mt"; "ws"] ->
                 fst (is_url_with_key k p buf) = false) /\
  (forall K rest, param_from (p :: rest) K = param_from rest K).
Proof.
  intros Hp. rewrite is_exact_topic_decoded in Hp.
  apply exact_topic_test_prefix in Hp.
  split.
  - intros k buf Hk. rewrite is_url_with_key_verdict. unfold is_url_keyed.
    destruct (String.eqb_spec (decoded (key p)) k) as [E|_]; [|reflexivity].
    exfalso. rewrite E in Hp. simpl in Hk.
    repeat (destruct Hk as [<-|Hk]; [discriminate Hp|]). destruct Hk.
  - intros K rest. rewrite !param_from_find. cbn [find].
    unfold is_extension_param at 1.
    destruct (String.eqb_spec (decoded (key p)) ("x." ++ K)) as [E|_];
      [|reflexivity].
    exfalso. rewrite E in Hp. discriminate Hp.
Qed.

(** ** Single-valued lookups *)

Lemma find_if_first {A : Type} (f : A -> bool) (l : list A) (x : A)
  (r : list A) :
  find_if l f = x :: r <->
  exists pre, l = (pre ++ x :: r)%list /\
              (forall y, In y pre -> f y = false) /\ f x = true.
Proof.
  split.
  - intros H. destruct (find_if_split f l) as (pre & Hl & Hpre).
    exists pre. rewrite H in Hl. split; [exact Hl|]. split; [exact Hpre|].
    now destruct (find_if_head f l x r H).
  - intros (pre & -> & Hpre & Hx).
    induction pre as [|a pre IH]; simpl.
    + now rewrite Hx.
    + rewrite (Hpre a (or_introl eq_refl)). apply IH.
      intros y Hy. apply Hpre. now right.
Qed.

Lemma pct_view_eta (v : pct_encoded_view) : {| encoded := encoded v |} = v.
Proof. now destruct v. Qed.

Lemma decoded_param_find (m : magnet_link_view) (k : string_view) :
  decoded_param m k =
  match params_find (params (u_ m)) k with
  | p :: _ => if has_value p then Some (value p) else None
  | [] => None
  end.
Proof.
  unfold decoded_param.
  destruct (params_find (params (u_ m)) k) as [|p r]; [reflexivity|].
  now rewrite pct_view_eta.
Qed.

(** X8: a lookup looks at the first match only.  [decoded_param], and so
    [keyword_topic] and [display_name], return the value of the first
    parameter whose key matches, when that parameter has a value; when it
    has none the result is absent, also when a later parameter with the
    same key has a value; and without a match the result is absent. *)
Theorem lookup_stops_at_first_match (m : magnet_link_view) (k : string_view) :
  (forall v, decoded_param m k = Some v <->
     exists pre p rest,
       params (u_ m) = (pre ++ p :: rest)%list /\
       (forall q, In q pre -> key_equal_encoded k (encoded (key q)) = false) /\
       key_equal_encoded k (encoded (key p)) = true /\
       has_value p = true /\ value p = v) /\
  (forall pre p rest,
     params (u_ m) = (pre ++ p :: rest)%list ->
     (forall q, In q pre -> key_equal_encoded k (encoded (key q)) = false) ->
     key_equal_encoded k (encoded (key p)) = true ->
     has_value p = false ->
     decoded_param m k = None) /\
  ((forall q, In q (params (u_ m)) ->
              key_equal_encoded k (encoded (key q)) = false) ->
   decoded_param m k = None) /\
  keyword_topic m = decoded_param m "kt" /\
  display_name m = decoded_param m "dn".
Proof.
  rewrite decoded_param_find. unfold params_find.
  split; [|split; [|split; [|split; reflexivity]]].
  - intros v. split.
    + destruct (find_if _ _) as [|p r] eqn:E; [discriminate|].
      destruct (has_value p) eqn:Hv; [|discriminate]. intros [= <-].
      apply find_if_first in E. destruct E as (pre & Hl & Hpre & Hp).
      now exists pre, p, r.
    + intros (pre & p & rest & Hl & Hpre & Hp & Hv & <-).
      assert (E : find_if (params (u_ m))
                    (fun q => key_equal_encoded k (encoded (key q)))
                  = p :: rest)
        by (apply find_if_first; now exists pre).
      now rewrite E, Hv.
  - intros pre p rest Hl Hpre Hp Hv.
    assert (E : find_if (params (u_ m))
                  (fun q => key_equal_encoded k (encoded (key q)))
                = p :: rest)
      by (apply find_if_first; now exists pre).
    now rewrite E, Hv.
  - intros Hnone.
    assert (E : at_end (find_if (params (u_ m))
                  (fun q => key_equal_encoded k (encoded (key q)))) = true)
      by now apply find_if_end.
    now destruct (find_if _ _).
Qed.

(** X9: [url_param] is the lookup followed by the parse.  [url_param]
    returns the URI that the still encoded text of [decoded_param]'s
    result parses to, and is absent when the lookup is absent or that text
    is no URI. *)
Theorem url_param_parses_lookup (m : magnet_link_view) (k : string_view) :
  url_param m k =
  match decoded_param m k with
  | Some v =>
      match parse_uri (encoded v) with
      | Ok u => Some u
      | Err _ => None
      end
  | None => None
  end.
Proof.
  unfold url_param, decoded_param.
  destruct (params_find (params (u_ m)) k) as [|p r]; [reflexivity|].
  destruct (has_value p); reflexivity.
Qed.

(** ** The program *)

Lemma print_each_returns {V St : Type} (label : string) (show : V -> string)
  (v : filtered_view query_param_view V St) (st st' : St) (l : list V)
  (out : string) :
  iterate v st = Some (Returns l, st') ->
  print_each label show v st out
  = Some (Returns ((out ++ lines label show l)%string, st')).
Proof. unfold print_each. now intros ->. Qed.

(** What [main] writes for a view, once the link is accepted. *)
Lemma main_accepted (argv0 link : string) (m : magnet_link_view)
  (us : list url_view) (hs ps : list string_view) :
  parse_magnet_link link = Ok m ->
  iterate (exact_topics m) tt = Some (Returns us, tt) ->
  iterate (info_hashes m) tt = Some (Returns hs, tt) ->
  iterate (protocols m) tt = Some (Returns ps, tt) ->
  main argv0 [link] = Some (Returns (success_output m us hs ps, EXIT_SUCCESS)).
Proof.
  intros Hm Hus Hhs Hps. unfold main, success_output. rewrite Hm.
  rewrite (print_each_returns _ _ _ _ _ _ _ Hus). cbn [run_bind].
  rewrite (print_each_returns _ _ _ _ _ _ _ Hhs). cbn [run_bind].
  rewrite (print_each_returns _ _ _ _ _ _ _ Hps). cbn [run_bind].
  unfold address_trackers, exact_sources, acceptable_sources,
    manifest_topics, web_seed.
  repeat (erewrite print_each_returns by apply url_keys_pass;
          cbn [run_bind]).
  reflexivity.
Qed.

(** The three views of exact topics on parameters that pass the rule. *)
Lemma valid_views_return (m : magnet_link_view) :
  exact_topics_valid (u_ m) ->
  exists u us hs ps,
    iterate (exact_topics m) tt = Some (Returns (u :: us), tt) /\
    iterate (info_hashes m) tt = Some (Returns hs, tt) /\
    iterate (protocols m) tt = Some (Returns ps, tt) /\
    List.length hs = S (List.length us) /\
    List.length ps = S (List.length us).
Proof.
  intros Hvalid.
  destruct (exn_sequence_returns to_url
              (filter is_exact_topic (params (u_ m)))) as (us & Hus & Hlen).
  { intros p Hp. now destruct (valid_topics_transform _ _ Hvalid Hp). }
  pose proof (valid_topics_nonempty _ Hvalid) as Hne.
  destruct us as [|u us].
  { destruct (filter is_exact_topic (params (u_ m)));
      [congruence | discriminate]. }
  pose proof Hus as HF. apply exn_sequence_forall2 in HF.
  assert (HF' : Forall2 (fun p w => parse_uri (encoded (value p)) = Ok w)
                  (filter is_exact_topic (params (u_ m))) (u :: us)).
  { eapply Forall2_impl; [|exact HF]. intros p w. apply to_url_returns_iff. }
  destruct (topics_forall2 _ _ HF') as (hs & ps & Hhs & Hps & Fh & Fp).
  exists u, us, hs, ps.
  unfold exact_topics, info_hashes, protocols. rewrite !topic_view_scan.
  rewrite Hus, Hhs, Hps.
  apply Forall2_length in Fh. apply Forall2_length in Fp.
  simpl in Fh, Fp. auto.
Qed.

(** X10: the status of the program.  [main] always returns, no exception
    leaves it and none of its loops runs on: the status is [EXIT_SUCCESS]
    exactly when there is one argument and [parse_magnet_link] accepts it,
    and [EXIT_FAILURE] otherwise; a rejected link writes nothing, and any
    other number of arguments writes the program name and the usage
    text. *)
Theorem main_exit_status (argv0 : string) (args : list string) :
  exists out code,
    main argv0 args = Some (Returns (out, code)) /\
    (code = EXIT_SUCCESS <->
     exists link m, args = [link] /\ parse_magnet_link link = Ok m) /\
    (code <> EXIT_SUCCESS -> code = EXIT_FAILURE) /\
    (forall link e, args = [link] -> parse_magnet_link link = Err e ->
                    out = "") /\
    (List.length args <> 1 -> out = argv0 ++ newline ++ usage).
Proof.
  assert (Hfail : EXIT_FAILURE <> EXIT_SUCCESS) by discriminate.
  destruct args as [|link [|x r]].
  - exists (argv0 ++ newline ++ usage), EXIT_FAILURE.
    split; [reflexivity|]. split; [|split; [|split]]; auto.
    + split; [intros H; now elim Hfail|]. intros (l & m & H & _).
      discriminate.
    + intros l e H. discriminate.
  - destruct (parse_magnet_link link) as [m|e] eqn:Em.
    + pose proof Em as Hvalid. apply parse_magnet_link_ok in Hvalid.
      destruct (valid_views_return m (proj2 Hvalid))
        as (u & us & hs & ps & Hus & Hhs & Hps & _).
      exists (success_output m (u :: us) hs ps), EXIT_SUCCESS.
      split; [now apply main_accepted|].
      split; [|split; [|split]].
      * split; [|reflexivity]. intros _. now exists link, m.
      * intros H. now elim H.
      * intros l e [= <-] H. congruence.
      * simpl. intros H. now elim H.
    + exists "", EXIT_FAILURE. split; [unfold main; now rewrite Em|].
      split; [|split; [|split]]; auto.
      * split; [intros H; now elim Hfail|].
        intros (l & m & [= <-] & H). congruence.
      * simpl. intros H. now elim H.
  - exists (argv0 ++ newline ++ usage), EXIT_FAILURE.
    split; [reflexivity|]. split; [|split; [|split]]; auto.
    + split; [intros H; now elim Hfail|]. intros (l & m & H & _).
      discriminate.
    + intros l e H. discriminate.
Qed.

(** X11: what the program writes for an accepted link.  The output is the
    link, then a line for every element of [exact_topics()],
    [info_hashes()] and [protocols()], of which there is at least one each
    and equally many, then a line for every parameter with key [tr], [xs],
    [as], [mt] and [ws] in turn whose decoded value parses as a URI, then
    the keyword topic and the display name when present: the buffer the
    five loops share leaves no trace in the output. *)
Theorem main_output_of_accepted (argv0 link : string) (m : magnet_link_view) :
  parse_magnet_link link = Ok m ->
  exists u us hs ps,
    iterate (exact_topics m) tt = Some (Returns (u :: us), tt) /\
    iterate (info_hashes m) tt = Some (Returns hs, tt) /\
    iterate (protocols m) tt = Some (Returns ps, tt) /\
    List.length hs = S (List.length us) /\
    List.length ps = S (List.length us) /\
    main argv0 [link]
    = Some (Returns (success_output m (u :: us) hs ps, EXIT_SUCCESS)).
Proof.
  intros Hm. pose proof Hm as Hvalid. apply parse_magnet_link_ok in Hvalid.
  destruct (valid_views_return m (proj2 Hvalid))
    as (u & us & hs & ps & Hus & Hhs & Hps & Lh & Lp).
  exists u, us, hs, ps. repeat (split; [assumption|]).
  now apply main_accepted.
Qed.

End FurtherProperties.

(** * The rest of the example on the reference instance *)

Example usage_link_output :
  @main reference_library reference_streams "magnet" [usage_link]
  = Some (Returns
      ("link: " ++ usage_link ++ newline ++
       "topic: urn:btih:d2474e86c95b19b8bcfdb92bc12c9d44667cfa36" ++ newline ++
       "hash: d2474e86c95b19b8bcfdb92bc12c9d44667cfa36" ++ newline ++
       "protocol: btih" ++ newline ++
       "tracker: udp://tracker.example4.com:80" ++ newline ++
       "tracker: udp://tracker.example5.com:80" ++ newline ++
       "tracker: udp://tracker.example3.com:6969" ++ newline ++
       "tracker: udp://tracker.example2.com:80" ++ newline ++
       "tracker: udp://tracker.example1.com:1337" ++ newline ++
       "display name: Leaves of Grass by Walt Whitman.epub" ++ newline,
       EXIT_SUCCESS)).
Proof. vm_compute. reflexivity. Qed.

Example rejected_link_is_silent :
  @main reference_library reference_streams "magnet" [no_topic_link]
  = Some (Returns ("", EXIT_FAILURE)).
Proof. vm_compute. reflexivity. Qed.

Example valueless_name_hides_later_one :
  @display_name reference_streams valueless_name_view = None /\
  @param reference_library valueless_name_view "dn"
  = Some {| encoded := "found" |}.
Proof. split; vm_compute; reflexivity. Qed.

(** ** Instances of the further properties *)

Lemma protocol_and_infohash_reassemble_witness :
  rfc_parse_uri (encoded (value leaves_topic)) = Ok leaves_urn /\
  (sv_size (encoded_path leaves_urn) <= npos)%N /\
  ~ colon_free (encoded_path leaves_urn) /\
  exists pr h,
    @to_protocol reference_library leaves_topic = Returns pr /\
    @to_infohash reference_library leaves_topic = Returns h /\
    encoded_path leaves_urn = pr ++ ":" ++ h /\ colon_free h.
Proof.
  assert (Hu : @parse_uri reference_library (encoded (value leaves_topic))
               = Ok leaves_urn) by (vm_compute; reflexivity).
  assert (Hfit : (sv_size (encoded_path leaves_urn) <= npos)%N)
    by (vm_compute; discriminate).
  assert (Hcolon : ~ colon_free (encoded_path leaves_urn)).
  { intros H. apply (H 4). reflexivity. }
  split; [exact Hu|]. split; [exact Hfit|]. split; [exact Hcolon|].
  exact (@protocol_and_infohash_reassemble reference_library leaves_topic
           leaves_urn Hu Hfit Hcolon).
Defined.

Lemma topic_views_run_in_step_witness :
  @iterate _ _ _ (@exact_topics reference_library leaves_view) tt
  = Some (Returns [leaves_urn], tt) /\
  exists hs ps,
    @iterate _ _ _ (@info_hashes reference_library leaves_view) tt
    = Some (Returns hs, tt) /\
    @iterate _ _ _ (@protocols reference_library leaves_view) tt
    = Some (Returns ps, tt) /\
    Forall2 (fun u h => infohash_of_path (encoded_path u) = Returns h)
            [leaves_urn] hs /\
    Forall2 (fun u pr => protocol_of_path (encoded_path u) = Returns pr)
            [leaves_urn] ps.
Proof.
  assert (Hus : @iterate _ _ _ (@exact_topics reference_library leaves_view) tt
                = Some (Returns [leaves_urn], tt))
    by (vm_compute; reflexivity).
  split; [exact Hus|].
  exact (proj2 (@topic_views_run_in_step reference_library leaves_view
                  [leaves_urn] Hus)).
Defined.

Lemma keyed_views_pass_witness :
  @iterate _ _ _ (@address_trackers reference_library trackers_view) ""
  = Some (Returns [ {| encoded := "udp%3A%2F%2Fa.example%3A80" |};
                    {| encoded := "http%3A%2F%2Fb.example%2Fannounce" |} ],
          "http://b.example/announce") /\
  @iterate _ _ _ (@web_seed reference_library trackers_view) "kept"
  = Some (Returns [], "kept").
Proof.
  split.
  - rewrite (proj1 (@keyed_views_pass reference_library trackers_view ""
                      (@address_trackers reference_library trackers_view)
                      "tr" (or_introl eq_refl))).
    vm_compute. reflexivity.
  - rewrite (proj1 (@keyed_views_pass reference_library trackers_view "kept"
                      (@web_seed reference_library trackers_view) "ws"
                      (or_intror (or_intror (or_intror (or_intror
                         (or_introl eq_refl))))))).
    vm_compute. reflexivity.
Defined.

Lemma acceptance_depends_on_exact_topics_witness :
  rfc_absolute_uri leaves_link = (Ok (u_ leaves_view), "") /\
  rfc_absolute_uri bare_leaves_link = (Ok bare_leaves_url, "") /\
  (forall p, @is_exact_topic reference_library p = true ->
     (In p (params (u_ leaves_view)) <-> In p (params bare_leaves_url))) /\
  ((exists m, @parse_magnet_link reference_library leaves_link = Ok m) <->
   (exists m, @parse_magnet_link reference_library bare_leaves_link = Ok m)).
Proof.
  assert (H1 : rfc_absolute_uri leaves_link = (Ok (u_ leaves_view), ""))
    by (vm_compute; reflexivity).
  assert (H2 : rfc_absolute_uri bare_leaves_link = (Ok bare_leaves_url, ""))
    by (vm_compute; reflexivity).
  assert (Hsame : forall p, @is_exact_topic reference_library p = true ->
            (In p (params (u_ leaves_view)) <-> In p (params bare_leaves_url))).
  { intros p Hp. split; intros Hin.
    - vm_compute in Hin.
      destruct Hin as [<-|[<-|[<-|[]]]];
        first [ left; reflexivity | vm_compute in Hp; discriminate Hp ].
    - vm_compute in Hin. destruct Hin as [<-|[]].
      vm_compute. left. reflexivity. }
  split; [exact H1|]. split; [exact H2|]. split; [exact Hsame|].
  exact (@acceptance_depends_on_exact_topics reference_library leaves_link
           bare_leaves_link (u_ leaves_view) bare_leaves_url H1 H2 Hsame).
Defined.

Lemma exact_topic_is_nothing_else_witness :
  @is_exact_topic reference_library leaves_topic = true /\
  (forall k buf, In k ["tr"; "xs"; "as"; "mt"; "ws"] ->
     fst (@is_url_with_key reference_library k leaves_topic buf) = false) /\
  (forall K rest, @param_from reference_library (leaves_topic :: rest) K
                  = @param_from reference_library rest K).
Proof.
  assert (Hp : @is_exact_topic reference_library leaves_topic = true)
    by reflexivity.
  split; [exact Hp|].
  exact (@exact_topic_is_nothing_else reference_library leaves_topic Hp).
Defined.

Lemma main_output_of_accepted_witness :
  @parse_magnet_link reference_library usage_link = Ok usage_view /\
  exists u us hs ps,
    @iterate _ _ _ (@exact_topics reference_library usage_view) tt
    = Some (Returns (u :: us), tt) /\
    @iterate _ _ _ (@info_hashes reference_library usage_view) tt
    = Some (Returns hs, tt) /\
    @iterate _ _ _ (@protocols reference_library usage_view) tt
    = Some (Returns ps, tt) /\
    List.length hs = S (List.length us) /\
    List.length ps = S (List.length us) /\
    @main reference_library reference_streams "magnet" [usage_link]
    = Some (Returns (@success_output reference_library reference_streams
                       usage_view (u :: us) hs ps, EXIT_SUCCESS)).
Proof.
  assert (Hm : @parse_magnet_link reference_library usage_link = Ok usage_view)
    by (vm_compute; reflexivity).
  split; [exact Hm|].
  exact (@main_output_of_accepted reference_library reference_streams
           "magnet" usage_link usage_view Hm).
Defined.
